(** * DataTable: sort and selection state of [src/components/ui/data-table.tsx]

    A shallow embedding of the generic [DataTable] component: the values a
    row field can hold, the comparator used by [sortedData], the three-phase
    sort cycle of [handleSort], the selection handlers [handleRowSelect] and
    [handleSelectAll], the derived flags [isAllSelected] / [isIndeterminate]
    and the render function, followed by the properties the specification
    states about them.

    Modelling choices, all visible below:
    - a JavaScript number is an integer ([VNum]) or NaN ([VNaN]); fractions,
      infinities and object-valued fields are outside the value domain.
      [===] is structural equality except that NaN is not equal to itself;
      the SameValueZero equality of [Set] is structural equality;
    - a row is a finite map from field names to values, an absent field reads
      as [undefined];
    - [String.prototype.localeCompare], the string-to-number conversion
      behind [<] and [Array.prototype.sort] belong to the host engine and are
      parameters ([Host]). Of the engine's sort only two things are used:
      it returns a permutation, and it never puts one element directly before
      another against every answer of the comparator. The order it returns
      for a comparator that contradicts itself is left open, as ECMAScript
      leaves it;
    - a handler runs against the props and state of the render that created
      it and returns the next state together with the callback invocations. *)

From stdpp Require Import base relations gmap sets list strings sorting.
From Stdlib Require Import ZArith Lia.

Open Scope Z_scope.

(** ** Values and rows *)

Inductive value : Type :=
  | VUndefined
  | VNull
  | VBool (b : bool)
  | VNum (n : Z)
  | VStr (s : string)
  | VNaN.

Global Instance value_eq_dec : EqDecision value.
Proof. solve_decision. Defined.

Definition value_encode (v : value) : unit + unit + bool + Z + string + unit :=
  match v with
  | VUndefined => inl (inl (inl (inl (inl tt))))
  | VNull => inl (inl (inl (inl (inr tt))))
  | VBool b => inl (inl (inl (inr b)))
  | VNum n => inl (inl (inr n))
  | VStr s => inl (inr s)
  | VNaN => inr tt
  end.

Definition value_decode (x : unit + unit + bool + Z + string + unit) : value :=
  match x with
  | inl (inl (inl (inl (inl _)))) => VUndefined
  | inl (inl (inl (inl (inr _)))) => VNull
  | inl (inl (inl (inr b))) => VBool b
  | inl (inl (inr n)) => VNum n
  | inl (inr s) => VStr s
  | inr _ => VNaN
  end.

Global Instance value_countable : Countable value.
Proof.
  refine (inj_countable' value_encode value_decode _).
  intros []; reflexivity.
Defined.

(** [T extends Record<string, any>] *)
Abbreviation row := (gmap string value).

(** [record[field]]: a missing property reads as [undefined]. *)
Definition get_field (record : row) (field : string) : value :=
  default VUndefined (record !! field).

(** [a === b] on the value domain: NaN is not equal to anything, itself
    included. *)
Definition strict_eq (a b : value) : bool :=
  match a, b with
  | VNaN, _ | _, VNaN => false
  | _, _ => bool_decide (a = b)
  end.

(** [v == null]: true for [null] and [undefined] only. *)
Definition is_nullish (v : value) : bool :=
  match v with
  | VUndefined | VNull => true
  | _ => false
  end.

(** The row has [null] or no value in [field]. *)
Definition nullish_on (field : string) (r : row) : Prop :=
  is_nullish (get_field r field) = true.

Global Instance nullish_on_dec field r : Decision (nullish_on field r).
Proof. unfold nullish_on. apply _. Defined.

(** [a ?? b] *)
Definition nullish_coalesce (a b : value) : value :=
  if is_nullish a then b else a.

(** ** Props and state (lines 6-32) *)

Inductive Align := left | center | right.

(** What a rendered control does when the user activates it: the closures
    at lines 211, 196 and 249. *)
Inductive action :=
  | ClickHeader (i : nat)          (* [() => handleSort(columns[i])] *)
  | CheckAll                       (* [handleSelectAll] *)
  | CheckRow (rowKey : value).     (* [checked => handleRowSelect(key, !!checked)] *)

(** The rendered tree. Class names, inline styles and aria labels are
    styling and accessibility glue and are left out; the one class that
    depends on state, the highlight of a selected row, is kept as the
    [selected] attribute. *)
#[warnings="-register-all"]
Inductive vnode : Type :=
  | VText (s : string)
  | VValue (v : value)
  | VElem (tag : string) (attrs : list (string * value))
      (on : option action) (children : list vnode).

Record Column := {
  key : string;
  title : string;
  dataIndex : string;
  sortable : option bool;
  render : option (value → row → nat → vnode);
  width : option value;
  align : option Align;
}.

Inductive rowKeyProp :=
  | RowKeyField (field : string)
  | RowKeyFn (f : row → value).

Inductive Order := asc | desc.

(** [type SortOrder = 'asc' | 'desc' | null] *)
Abbreviation SortOrder := (option Order).

Record SortState := {
  column : option string;
  order : SortOrder;
}.

Global Instance Order_eq_dec : EqDecision Order.
Proof. solve_decision. Defined.

Global Instance SortState_eq_dec : EqDecision SortState.
Proof. solve_decision. Defined.

(** ** Shared arrays

    The cells of the heap used further down to follow the caller's arrays:
    an array of rows or an array of column descriptors. *)

Abbreviation loc := positive.

Inductive cell :=
  | RowArray (rows : list row)
  | ColumnArray (cols : list Column).

Abbreviation heap := (gmap loc cell).

(** ** The engine's sort

    [Array.prototype.sort(cmp)] is code of the engine. ECMAScript fixes its
    result only for a comparator that is consistent on the elements; for
    any other comparator the order is implementation-defined. Two engines
    are written out here: a stable insertion sort, and the strategy TimSort
    engines apply to short arrays (an initial run, reversed when strictly
    descending, then binary insertion of the remaining elements). *)

(** A stable insertion sort: [x] goes in front of the first element it does
    not compare greater than, so ties keep their input order. *)
Fixpoint sort_insert {A} (cmp : A → A → Z) (x : A) (l : list A) : list A :=
  match l with
  | [] => [x]
  | y :: l' => if 0 <? cmp x y then y :: sort_insert cmp x l' else x :: l
  end.

Fixpoint array_sort {A} (cmp : A → A → Z) (l : list A) : list A :=
  match l with
  | [] => []
  | x :: l' => sort_insert cmp x (array_sort cmp l')
  end.

(** The initial run: the comparator is asked [cmp(next, previous)]; the run
    is descending when the first answer is negative and goes on as long as
    the answers stay negative, otherwise it goes on as long as they stay
    non-negative. *)
Fixpoint extend_run {A} (cmp : A → A → Z) (descending : bool) (prev : A)
    (l : list A) : list A * list A :=
  match l with
  | [] => ([], [])
  | y :: l' =>
      let order := cmp y prev in
      if (if descending then order <? 0 else 0 <=? order)
      then let '(run, rest) := extend_run cmp descending y l' in (y :: run, rest)
      else ([], l)
  end.

Definition count_and_make_run {A} (cmp : A → A → Z) (l : list A) : list A * list A :=
  match l with
  | x0 :: x1 :: l' =>
      let descending := cmp x1 x0 <? 0 in
      let '(run, rest) := extend_run cmp descending x1 l' in
      let whole := x0 :: x1 :: run in
      (if descending then reverse whole else whole, rest)
  | _ => (l, [])
  end.

(** Binary search for the place of [pivot] in [sorted], between [left] and
    [right]; the comparator is asked [cmp(pivot, sorted[mid])]. *)
Fixpoint binary_search {A} (cmp : A → A → Z) (pivot : A) (sorted : list A)
    (left right fuel : nat) : nat :=
  match fuel with
  | O => left
  | S fuel' =>
      if (left <? right)%nat then
        let mid := (left + Nat.div2 (right - left))%nat in
        match sorted !! mid with
        | Some y =>
            if cmp pivot y <? 0
            then binary_search cmp pivot sorted left mid fuel'
            else binary_search cmp pivot sorted (S mid) right fuel'
        | None => left
        end
      else left
  end.

Definition binary_insert {A} (cmp : A → A → Z) (pivot : A) (sorted : list A) : list A :=
  let k := binary_search cmp pivot sorted 0 (length sorted) (length sorted) in
  take k sorted ++ pivot :: drop k sorted.

Definition binary_insertion_sort {A} (cmp : A → A → Z) (l : list A) : list A :=
  let '(run, rest) := count_and_make_run cmp l in
  foldl (λ sorted pivot, binary_insert cmp pivot sorted) run rest.

(** An answer of the comparator that allows [u] before [v]: asked one way
    it did not say "greater", or asked the other way it did not say "less". *)
Definition answered {A} (cmp : A → A → Z) (u v : A) : Prop :=
  cmp u v ≤ 0 ∨ 0 ≤ cmp v u.

(** [u] may come before [v] on the strength of the comparator's answers
    about elements of [l]: a chain of such answers leads from [u] to [v]. *)
Definition justified {A} (cmp : A → A → Z) (l : list A) : relation A :=
  tc (λ u v, u ∈ l ∧ v ∈ l ∧ answered cmp u v).

(** The comparator is a consistent comparator for the elements of [l], in
    the sense of ECMAScript: it is reflexive, symmetric and transitive where
    it answers zero, and transitive where it answers negative and where it
    answers positive. *)
Definition consistent_on {A} (cmp : A → A → Z) (l : list A) : Prop :=
  ∀ a b c, a ∈ l → b ∈ l → c ∈ l →
    cmp a a = 0
    ∧ (cmp a b = 0 → cmp b a = 0)
    ∧ (cmp a b = 0 → cmp b c = 0 → cmp a c = 0)
    ∧ (cmp a b < 0 → cmp b c < 0 → cmp a c < 0)
    ∧ (0 < cmp a b → 0 < cmp b c → 0 < cmp a c).

(** ** Host engine *)

Class Host := {
  (** [s.localeCompare(t)]: negative, zero or positive *)
  localeCompare : string → string → Z;
  (** StringToNumber restricted to integers; [None] stands for NaN *)
  StringToNumber : string → option Z;
  (** [rows.sort(cmp)], as a function of the comparator and the elements *)
  engine_sort : (row → row → Z) → list row → list row;
  (** the result holds the same rows *)
  engine_sort_perm cmp l : engine_sort cmp l ≡ₚ l;
  (** no row is placed directly before another unless the comparator's
      answers lead from the first to the second *)
  engine_sort_justified cmp l : Sorted (justified cmp l) (engine_sort cmp l);
}.

(** The engine's sort is stable, as ECMAScript requires since ES2019: for
    a comparator that is consistent on the rows, the rows that tie with a
    given row come out in the order they went in. *)
Definition engine_stable `{host : Host} : Prop :=
  ∀ cmp l, consistent_on cmp l →
    ∀ a, a ∈ l →
      filter (λ x, cmp a x = 0) (engine_sort cmp l) = filter (λ x, cmp a x = 0) l.

Section DataTable.

Context `{host : Host}.

(** ToNumber; [None] stands for NaN. *)
Definition ToNumber (v : value) : option Z :=
  match v with
  | VUndefined | VNaN => None
  | VNull => Some 0
  | VBool b => Some (if b then 1 else 0)
  | VNum n => Some n
  | VStr s => StringToNumber s
  end.

(** [a < b]: two strings compare by code units, any other pair is converted
    with ToNumber and a NaN operand makes the result false. *)
Definition js_lt (a b : value) : bool :=
  match a, b with
  | VStr s, VStr t => String.ltb s t
  | _, _ =>
      match ToNumber a, ToNumber b with
      | Some x, Some y => Z.ltb x y
      | _, _ => false
      end
  end.

(** ** The comparator and [sortedData] (lines 57-82) *)

(** The arrow function handed to [sort] at lines 65-81. *)
Definition compareRows (ord : Order) (field : string) (a b : row) : Z :=
  let aValue := get_field a field in
  let bValue := get_field b field in
  if strict_eq aValue bValue then 0
  else
    let comparison :=
      if is_nullish aValue then -1
      else if is_nullish bValue then 1
      else match aValue, bValue with
           | VStr s, VStr t => localeCompare s t
           | _, _ => if js_lt aValue bValue then -1 else 1
           end in
    match ord with
    | desc => - comparison
    | asc => comparison
    end.

(** Truthiness of a [string | null]: [null] and the empty string are falsy. *)
Definition truthy_string (s : option string) : bool :=
  match s with
  | Some s => negb (bool_decide (s = EmptyString))
  | None => false
  end.

(** [columns.find(col => col.key === id)] *)
Definition find_column (columns : list Column) (id : string) : option Column :=
  List.find (λ col, bool_decide (key col = id)) columns.

Definition sortedData (data : list row) (columns : list Column)
    (sortState : SortState) : list row :=
  if negb (truthy_string (column sortState)) || negb (bool_decide (is_Some (order sortState)))
  then data
  else
    match column sortState, order sortState with
    | Some id, Some ord =>
        match find_column columns id with
        | None => data
        | Some col => engine_sort (compareRows ord (dataIndex col)) data
        end
    | _, _ => data
    end.

(** ** Component props and state (lines 16-46) *)

Context {E : Type}.

Record DataTableProps := {
  data : list row;
  columns : list Column;
  loading : option bool;
  selectable : option bool;
  onRowSelect : option (list row → E);
  className : option string;
  emptyMessage : option string;
  rowKey : option rowKeyProp;
}.

(** Destructuring defaults of lines 37-42. *)
Definition loading_or_default (p : DataTableProps) : bool := default false (loading p).
Definition selectable_or_default (p : DataTableProps) : bool := default false (selectable p).
Definition emptyMessage_or_default (p : DataTableProps) : string :=
  default "No data available"%string (emptyMessage p).
Definition rowKey_or_default (p : DataTableProps) : rowKeyProp :=
  default (RowKeyField "id") (rowKey p).

(** The two [useState] cells. *)
Record State := {
  sortState : SortState;
  selectedRowKeys : gset value;
}.

(** [{ column: null, order: null }] *)
Definition cleared : SortState := {| column := None; order := None |}.

Definition initialState : State :=
  {| sortState := cleared; selectedRowKeys := ∅ |}.

Definition setSortState (f : SortState → SortState) (s : State) : State :=
  {| sortState := f (sortState s); selectedRowKeys := selectedRowKeys s |}.

Definition setSelectedRowKeys (keys : gset value) (s : State) : State :=
  {| sortState := sortState s; selectedRowKeys := keys |}.

(** ** [getRowKey] (lines 49-54) *)

Definition getRowKey (p : DataTableProps) (record : row) (index : nat) : value :=
  match rowKey_or_default p with
  | RowKeyFn f => f record
  | RowKeyField field => nullish_coalesce (get_field record field) (VNum (Z.of_nat index))
  end.

(** [data.map((record, index) => getRowKey(record, index))] *)
Definition rowKeys (p : DataTableProps) : list value :=
  imap (λ index record, getRowKey p record index) (data p).

(** ** [handleSort] (lines 85-104) *)

Definition truthy_flag (b : option bool) : bool := default false b.

(** The updater passed to [setSortState]. *)
Definition nextSortState (col : Column) (prev : SortState) : SortState :=
  if negb (bool_decide (column prev = Some (key col)))
  then {| column := Some (key col); order := Some asc |}
  else
    match order prev with
    | None => {| column := Some (key col); order := Some asc |}
    | Some asc => {| column := Some (key col); order := Some desc |}
    | Some desc => {| column := None; order := None |}
    end.

Definition handleSort (col : Column) (s : State) : State :=
  if negb (truthy_flag (sortable col)) then s
  else setSortState (nextSortState col) s.

(** ** [handleRowSelect] and [handleSelectAll] (lines 107-136) *)

(** [arr.filter((x, i) => f(x, i))] *)
Fixpoint filter_from {A} (f : A → nat → bool) (i : nat) (l : list A) : list A :=
  match l with
  | [] => []
  | x :: l' => if f x i then x :: filter_from f (S i) l' else filter_from f (S i) l'
  end.

Definition array_filter {A} (f : A → nat → bool) (l : list A) : list A :=
  filter_from f 0%nat l.

(** [set.has(k)] *)
Definition set_has (keys : gset value) (k : value) : bool := bool_decide (k ∈ keys).

Definition handleRowSelect (p : DataTableProps) (s : State)
    (rowKey : value) (selected : bool) : State * list E :=
  let newSelectedKeys :=
    if selected then selectedRowKeys s ∪ {[rowKey]}
    else selectedRowKeys s ∖ {[rowKey]} in
  let s' := setSelectedRowKeys newSelectedKeys s in
  match onRowSelect p with
  | Some callback =>
      let selectedRows :=
        array_filter (λ record index, set_has newSelectedKeys (getRowKey p record index))
          (data p) in
      (s', [callback selectedRows])
  | None => (s', [])
  end.

Definition handleSelectAll (p : DataTableProps) (s : State)
    (selected : bool) : State * list E :=
  if selected then
    let allKeys : gset value := list_to_set (rowKeys p) in
    (setSelectedRowKeys allKeys s,
     match onRowSelect p with Some callback => [callback (data p)] | None => [] end)
  else
    (setSelectedRowKeys ∅ s,
     match onRowSelect p with Some callback => [callback []] | None => [] end).

(** ** Derived flags (lines 139-140) *)

Definition isAllSelected (p : DataTableProps) (s : State) : bool :=
  bool_decide (0 < length (data p))%nat
  && bool_decide (size (selectedRowKeys s) = length (data p)).

Definition isIndeterminate (p : DataTableProps) (s : State) : bool :=
  bool_decide (0 < size (selectedRowKeys s))%nat
  && bool_decide (size (selectedRowKeys s) < length (data p))%nat.

(** ** Rendering (lines 143-281) *)

(** [{cond && node}] and a [null] child render nothing. *)
Definition when (cond : bool) (node : vnode) : list vnode :=
  if cond then [node] else [].

Definition icon (tag : string) : vnode := VElem tag [] None [].

Definition renderSortIcon (s : State) (col : Column) : list vnode :=
  if negb (truthy_flag (sortable col)) then []
  else
    let isActive := bool_decide (column (sortState s) = Some (key col)) in
    if negb isActive
    then [VElem "div" [] None [icon "ChevronUp"; icon "ChevronDown"]]
    else [VElem "div" [] None
            [if bool_decide (order (sortState s) = Some asc)
             then icon "ChevronUp" else icon "ChevronDown"]].

(** The early return of lines 169-179. *)
Definition emptyPanel (p : DataTableProps) : vnode :=
  VElem "div" [] None
    [VElem "div" [] None
       [icon "Database";
        VElem "h3" [] None [VText "No Data"];
        VElem "p" [] None [VText (emptyMessage_or_default p)]]].

Definition headerRow (p : DataTableProps) (s : State) : vnode :=
  VElem "tr" [] None
    (when (selectable_or_default p)
       (VElem "th" [] None
          [VElem "Checkbox"
             [("checked"%string, VBool (isAllSelected p s));
              ("indeterminate"%string, VBool (isIndeterminate p s))]
             (Some CheckAll) []])
     ++ imap (λ i col,
          VElem "th" [("key"%string, VStr (key col))] (Some (ClickHeader i))
            [VElem "div" [] None
               (VElem "span" [] None [VText (title col)] :: renderSortIcon s col)])
        (columns p)).

Definition loadingRow (p : DataTableProps) : vnode :=
  VElem "tr" [] None
    [VElem "td"
       [("colSpan"%string,
         VNum (Z.of_nat (length (columns p) + (if selectable_or_default p then 1 else 0))))]
       None
       [VElem "div" [] None
          [icon "Loader2"; VElem "span" [] None [VText "Loading data..."]]]].

(** The body of [sortedData.map((record, index) => ...)], lines 232-275. *)
Definition bodyRow (p : DataTableProps) (s : State) (index : nat) (record : row) : vnode :=
  let key_ := getRowKey p record index in
  let isSelected := set_has (selectedRowKeys s) key_ in
  VElem "tr" [("key"%string, key_); ("selected"%string, VBool isSelected)] None
    (when (selectable_or_default p)
       (VElem "td" [] None
          [VElem "Checkbox" [("checked"%string, VBool isSelected)]
             (Some (CheckRow key_)) []])
     ++ map (λ col,
          let value := get_field record (dataIndex col) in
          let displayValue :=
            match render col with
            | Some f => f value record index
            | None => VValue value
            end in
          VElem "td" [("key"%string, VStr (key col))] None [displayValue])
        (columns p)).

Definition bodyRows (p : DataTableProps) (s : State) : list vnode :=
  if loading_or_default p then [loadingRow p]
  else imap (bodyRow p s) (sortedData (data p) (columns p) (sortState s)).

(** The grid of lines 181-281 around a given table body. *)
Definition tableView (p : DataTableProps) (s : State) (body : list vnode) : vnode :=
  VElem "div" [] None
    [VElem "div" [] None
       [VElem "table" [] None
          [VElem "thead" [] None [headerRow p s];
           VElem "tbody" [] None body]]].

Definition DataTable (p : DataTableProps) (s : State) : vnode :=
  if negb (loading_or_default p) && bool_decide (length (data p) = 0%nat)
  then emptyPanel p
  else tableView p s (bodyRows p s).

(** The branch the render takes: the test of line 169, then the test of
    line 222. *)
Inductive RenderState := Loading | Empty | Populated.

Definition renderState (p : DataTableProps) : RenderState :=
  if negb (loading_or_default p) && bool_decide (length (data p) = 0%nat) then Empty
  else if loading_or_default p then Loading
  else Populated.

(** One user interaction with a rendered control; [checked] is the value
    a checkbox reports. *)
Definition dispatch (p : DataTableProps) (s : State) (a : action)
    (checked : bool) : State * list E :=
  match a with
  | ClickHeader i =>
      match columns p !! i with
      | Some col => (handleSort col s, [])
      | None => (s, [])
      end
  | CheckAll => handleSelectAll p s checked
  | CheckRow k => handleRowSelect p s k checked
  end.

(** Observations on a rendered tree. *)
Fixpoint count_tag (t : string) (n : vnode) : nat :=
  match n with
  | VElem tag _ _ children =>
      ((if bool_decide (tag = t) then 1 else 0)
       + (fix go (l : list vnode) : nat :=
            match l with
            | [] => 0
            | c :: l' => count_tag t c + go l'
            end) children)%nat
  | _ => 0%nat
  end.

Fixpoint texts (n : vnode) : list string :=
  match n with
  | VText s => [s]
  | VValue _ => []
  | VElem _ _ _ children =>
      (fix go (l : list vnode) : list string :=
         match l with
         | [] => []
         | c :: l' => texts c ++ go l'
         end) children
  end.

(** The controls of a rendered tree, in document order. *)
Fixpoint actions (n : vnode) : list action :=
  match n with
  | VElem _ _ on children =>
      option_list on
      ++ (fix go (l : list vnode) : list action :=
            match l with
            | [] => []
            | c :: l' => actions c ++ go l'
            end) children
  | _ => []
  end.

(** Following the specification's words for the callback argument: the
    selected rows "in current display order", that is the rows of the sorted
    view whose key is in [keys]. *)
Definition displayed_selection (p : DataTableProps) (s : State)
    (keys : gset value) : list row :=
  array_filter (λ record index, set_has keys (getRowKey p record index))
    (sortedData (data p) (columns p) (sortState s)).

(** What can be read off a rendered tree without knowing how it was
    built: the tag, attributes and children of a node, the first child with
    a given tag, the rows of the table body and the cells of the header row
    (found along root, wrapper, [table], [tbody] or [thead]), the [key] of a
    row, and from these the state the output is in. *)
Definition node_tag (n : vnode) : option string :=
  match n with
  | VElem tag _ _ _ => Some tag
  | _ => None
  end.

Definition node_attrs (n : vnode) : list (string * value) :=
  match n with
  | VElem _ attrs _ _ => attrs
  | _ => []
  end.

Definition node_children (n : vnode) : list vnode :=
  match n with
  | VElem _ _ _ children => children
  | _ => []
  end.

Definition child (tag : string) (n : vnode) : option vnode :=
  List.find (λ c, bool_decide (node_tag c = Some tag)) (node_children n).

Definition table_of (out : vnode) : option vnode :=
  match child "div" out with
  | Some wrapper => child "table" wrapper
  | None => None
  end.

Definition body_rows (out : vnode) : option (list vnode) :=
  match table_of out with
  | Some table =>
      match child "tbody" table with
      | Some tbody => Some (node_children tbody)
      | None => None
      end
  | None => None
  end.

Definition header_cells (out : vnode) : option (list vnode) :=
  match table_of out with
  | Some table =>
      match child "thead" table with
      | Some thead =>
          match child "tr" thead with
          | Some tr => Some (node_children tr)
          | None => None
          end
      | None => None
      end
  | None => None
  end.

Definition row_key (r : vnode) : option value :=
  match List.find (λ kv : string * value, bool_decide (kv.1 = "key"%string)) (node_attrs r) with
  | Some kv => Some kv.2
  | None => None
  end.

(** No table: empty. A table whose body rows all carry a row key:
    populated. A table with a body row that carries none (the placeholder
    row): loading. *)
Definition observed_state (out : vnode) : RenderState :=
  match body_rows out with
  | None => Empty
  | Some rows =>
      if forallb (λ r, bool_decide (is_Some (row_key r))) rows
      then Populated else Loading
  end.

(** ** Arrays as shared objects

    The caller's [data] and [columns] are references to arrays that the
    caller keeps. Here the arrays live in a heap, [[...data]] and [filter]
    allocate, and [sort] writes into the array it is called on. Sets, key
    arrays and rendered nodes are private temporaries of the component and
    stay values. *)

Definition read_rows (h : heap) (l : loc) : list row :=
  match h !! l with
  | Some (RowArray rows) => rows
  | _ => []
  end.

Definition read_columns (h : heap) (l : loc) : list Column :=
  match h !! l with
  | Some (ColumnArray cols) => cols
  | _ => []
  end.

Definition alloc (c : cell) (h : heap) : loc * heap :=
  let l := fresh (dom h) in (l, <[l := c]> h).

(** [[...arr]]: a new array with the same elements. *)
Definition array_spread (arr : loc) (h : heap) : loc * heap :=
  alloc (RowArray (read_rows h arr)) h.

(** [arr.sort(cmp)]: sorts [arr] in place and returns [arr] itself. *)
Definition array_sort_in_place (cmp : row → row → Z) (arr : loc) (h : heap) : loc * heap :=
  (arr, <[arr := RowArray (engine_sort cmp (read_rows h arr))]> h).

(** [sortedData] on references: [return data] hands back the caller's own
    array, [[...data].sort(...)] sorts a fresh copy. *)
Definition sortedData_mem (dataRef columnsRef : loc) (sortState : SortState)
    (h : heap) : loc * heap :=
  if negb (truthy_string (column sortState)) || negb (bool_decide (is_Some (order sortState)))
  then (dataRef, h)
  else
    match column sortState, order sortState with
    | Some id, Some ord =>
        match find_column (read_columns h columnsRef) id with
        | None => (dataRef, h)
        | Some col =>
            let '(copy, h1) := array_spread dataRef h in
            array_sort_in_place (compareRows ord (dataIndex col)) copy h1
        end
    | _, _ => (dataRef, h)
    end.

(** The handlers on references. The second component lists the array each
    callback invocation receives. *)
Definition handleRowSelect_mem (p : DataTableProps) (dataRef : loc) (s : State)
    (rowKey : value) (selected : bool) (h : heap) : State * list loc * heap :=
  let newSelectedKeys :=
    if selected then selectedRowKeys s ∪ {[rowKey]}
    else selectedRowKeys s ∖ {[rowKey]} in
  let s' := setSelectedRowKeys newSelectedKeys s in
  match onRowSelect p with
  | Some _ =>
      let '(selectedRows, h') :=
        alloc (RowArray
                 (array_filter
                    (λ record index, set_has newSelectedKeys (getRowKey p record index))
                    (read_rows h dataRef))) h in
      (s', [selectedRows], h')
  | None => (s', [], h)
  end.

Definition handleSelectAll_mem (p : DataTableProps) (dataRef : loc) (s : State)
    (selected : bool) (h : heap) : State * list loc * heap :=
  if selected then
    let allKeys : gset value :=
      list_to_set (imap (λ index record, getRowKey p record index) (read_rows h dataRef)) in
    (setSelectedRowKeys allKeys s,
     match onRowSelect p with Some _ => [dataRef] | None => [] end, h)
  else
    match onRowSelect p with
    | Some _ =>
        let '(empty, h') := alloc (RowArray []) h in
        (setSelectedRowKeys ∅ s, [empty], h')
    | None => (setSelectedRowKeys ∅ s, [], h)
    end.

(** What the component does between two renders. *)
Inductive interaction :=
  | Render
  | Interact (a : action) (checked : bool).

Definition step_mem (p : DataTableProps) (dataRef columnsRef : loc)
    (i : interaction) (sh : State * heap) : State * heap :=
  let '(s, h) := sh in
  match i with
  | Render => (s, (sortedData_mem dataRef columnsRef (sortState s) h).2)
  | Interact (ClickHeader n) _ =>
      match read_columns h columnsRef !! n with
      | Some col => (handleSort col s, h)
      | None => (s, h)
      end
  | Interact CheckAll checked =>
      let '(s', _, h') := handleSelectAll_mem p dataRef s checked h in (s', h')
  | Interact (CheckRow k) checked =>
      let '(s', _, h') := handleRowSelect_mem p dataRef s k checked h in (s', h')
  end.

Definition run_mem (p : DataTableProps) (dataRef columnsRef : loc)
    (events : list interaction) (sh : State * heap) : State * heap :=
  foldl (λ acc i, step_mem p dataRef columnsRef i acc) sh events.

End DataTable.

Arguments DataTableProps : clear implicits.

(** ** Sample inputs

    A few rows and columns, used to run the definitions on concrete
    inputs. *)

Definition mk_column (k : string) (can_sort : option bool) : Column :=
  {| key := k; title := k; dataIndex := k; sortable := can_sort;
     render := None; width := None; align := None |}.

Definition age_column : Column := mk_column "age" (Some true).
Definition name_column : Column := mk_column "name" None.

Definition user (id age : Z) : row :=
  {[ "id"%string := VNum id; "age"%string := VNum age ]}.

(** A row without an [id] field. *)
Definition anonymous (age : Z) : row := {[ "age"%string := VNum age ]}.

Definition mk_props (rows : list row) (report : bool) : DataTableProps (list row) :=
  {| data := rows; columns := [age_column; name_column];
     loading := None; selectable := Some true;
     onRowSelect := if report then Some (λ selectedRows, selectedRows) else None;
     className := None; emptyMessage := None; rowKey := None |}.

Definition sorted_by_age (ord : Order) (keys : gset value) : State :=
  {| sortState := {| column := Some "age"%string; order := Some ord |};
     selectedRowKeys := keys |}.

(** * InputField ([src/components/ui/input-field.tsx])

    The state and the conditional structure of the input component: which
    parts are rendered and with which contents. Class names are left out. A
    change event is represented by its [target.value], the only part of the
    event the component builds itself. The rest props are [id], which the
    component reads, and the others ([rest]), which it only spreads onto
    the [input] element, after the two [aria-] attributes it computes. *)

Module InputField.

Inductive InputType := text | password | email | number.
Inductive Variant := filled | outlined | ghost.
Inductive Size := sm | md | lg.

Global Instance InputType_eq_dec : EqDecision InputType.
Proof. solve_decision. Defined.

(** The value of a prop or attribute; the record below has a field named
    [value]. *)
Definition prop_value : Type := value.

Record InputFieldProps {E : Type} := {
  value : option string;
  onChange : option (string → E);
  label : option string;
  placeholder : option string;
  helperText : option string;
  errorMessage : option string;
  disabled : option bool;
  invalid : option bool;
  loading : option bool;
  variant : option Variant;
  size : option Size;
  type : option InputType;
  showClearButton : option bool;
  showPasswordToggle : option bool;
  className : option string;
  id : option string;
  rest : gmap string prop_value;
}.

Arguments InputFieldProps : clear implicits.

Section Component.

Context {E : Type}.

Implicit Types (p : InputFieldProps E).

(** Destructuring defaults. *)
Definition value_or_default p : string := default EmptyString (value p).
Definition disabled_or_default p : bool := default false (disabled p).
Definition invalid_or_default p : bool := default false (invalid p).
Definition loading_or_default p : bool := default false (loading p).
Definition type_or_default p : InputType := default text (type p).
Definition showClearButton_or_default p : bool := default false (showClearButton p).
Definition showPasswordToggle_or_default p : bool :=
  default false (showPasswordToggle p).

(** The two [useState] cells. *)
Record State := {
  showPassword : bool;
  internalType : InputType;
}.

Definition initialState p : State :=
  {| showPassword := false; internalType := type_or_default p |}.

(** The effect on [[type, showPassword]]. *)
Definition effect p (st : State) : State :=
  {| showPassword := showPassword st;
     internalType :=
       if bool_decide (type_or_default p = password)
       then (if showPassword st then text else password)
       else type_or_default p |}.

Definition togglePasswordVisibility (st : State) : State :=
  {| showPassword := negb (showPassword st); internalType := internalType st |}.

(** A click on the visibility button: the state change, then the effect of
    the render it causes. *)
Definition click_toggle p (st : State) : State :=
  effect p (togglePasswordVisibility st).

(** [handleClear]: the change events sent to the caller. *)
Definition handleClear p : list E :=
  match onChange p with
  | Some f => [f EmptyString]
  | None => []
  end.

Definition hasError p : bool :=
  invalid_or_default p || truthy_string (errorMessage p).

(** [value && value.length > 0] as a condition. *)
Definition hasContent p : bool :=
  truthy_string (Some (value_or_default p))
  && bool_decide (0 < String.length (value_or_default p))%nat.

Inductive Icon :=
  | Spinner
  | ClearButton (is_disabled : bool)
  | PasswordToggle (is_disabled : bool) (showing : bool).

(** The condition of the icons container, also used for the right padding
    of the input. *)
Definition showsIcons p : bool :=
  (showClearButton_or_default p && hasContent p)
  || (showPasswordToggle_or_default p && bool_decide (type_or_default p = password))
  || loading_or_default p.

Definition icons p (st : State) : list Icon :=
  (if loading_or_default p then [Spinner] else [])
  ++ (if negb (loading_or_default p) && showClearButton_or_default p && hasContent p
      then [ClearButton (disabled_or_default p)] else [])
  ++ (if negb (loading_or_default p) && showPasswordToggle_or_default p
         && bool_decide (type_or_default p = password)
      then [PasswordToggle (disabled_or_default p) (showPassword st)] else []).

(** [`${props.id || 'input'}-description`] *)
Definition descriptionId p : string :=
  (if truthy_string (id p) then default EmptyString (id p) else "input")
  +:+ "-description".

(** [helperText || errorMessage] as a condition. *)
Definition hasDescription p : bool :=
  truthy_string (helperText p) || truthy_string (errorMessage p).

(** [errorMessage || helperText] as a value. *)
Definition descriptionText p : option string :=
  if truthy_string (errorMessage p) then errorMessage p else helperText p.

Record View := {
  labelText : option string;
  inputType : InputType;
  inputValue : string;
  inputPlaceholder : option string;
  inputDisabled : bool;
  paddedRight : bool;
  ariaInvalid : prop_value;
  ariaDescribedby : prop_value;
  iconsContainer : option (list Icon);
  description : option (string * option string * bool);
}.

(** The attributes written before [{...props}] on the [input] element,
    lines 147-151: a key of the rest props replaces the computed value, also
    when it holds [undefined]. *)
Definition spread_over (computed : prop_value) (attr : string) p : prop_value :=
  default computed (rest p !! attr).

Definition InputField p (st : State) : View :=
  {| labelText := if truthy_string (label p) then label p else None;
     inputType := internalType st;
     inputValue := value_or_default p;
     inputPlaceholder := placeholder p;
     inputDisabled := disabled_or_default p || loading_or_default p;
     paddedRight := showsIcons p;
     ariaInvalid := spread_over (VBool (hasError p)) "aria-invalid" p;
     ariaDescribedby :=
       spread_over
         (if hasDescription p then VStr (descriptionId p) else VUndefined)
         "aria-describedby" p;
     iconsContainer := if showsIcons p then Some (icons p st) else None;
     description :=
       if hasDescription p
       then Some (descriptionId p, descriptionText p, hasError p)
       else None |}.

End Component.

End InputField.

(** * The demo page ([ComponentDemo])

    The page that wires the two components together: its sample rows and
    columns, the part of its state that feeds the table and the first input,
    and the handlers that change it. The two halves of the asynchronous
    loading handler are separate events. *)

Module Demo.

Definition sampleUser (id : Z) (name email role status lastLogin : string) : row :=
  {[ "id"%string := VNum id; "name"%string := VStr name;
     "email"%string := VStr email; "role"%string := VStr role;
     "status"%string := VStr status; "lastLogin"%string := VStr lastLogin ]}.

Definition sampleUsers : list row :=
  [ sampleUser 1 "Alice Johnson" "alice.johnson@company.com" "Admin" "active" "2024-01-15";
    sampleUser 2 "Bob Smith" "bob.smith@company.com" "Developer" "active" "2024-01-14";
    sampleUser 3 "Carol Davis" "carol.davis@company.com" "Designer" "inactive" "2024-01-10";
    sampleUser 4 "David Wilson" "david.wilson@company.com" "Manager" "pending" "2024-01-12";
    sampleUser 5 "Emma Brown" "emma.brown@company.com" "Developer" "active" "2024-01-15" ].

(** [c.toUpperCase()] for one ASCII character. *)
Definition upper_ascii (c : Ascii.ascii) : Ascii.ascii :=
  let n := Ascii.nat_of_ascii c in
  if bool_decide (97 ≤ n)%nat && bool_decide (n ≤ 122)%nat
  then Ascii.ascii_of_nat (n - 32) else c.

(** [s.charAt(0).toUpperCase() + s.slice(1)] *)
Definition capitalize (s : string) : string :=
  match s with
  | EmptyString => EmptyString
  | String c rest => String (upper_ascii c) rest
  end.

(** The lookup [{active: .., inactive: .., pending: ..}[status] || 'default'],
    for the keys the object literal itself has. *)
Definition badgeVariant (status : string) : string :=
  if bool_decide (status = "active"%string) then "default"
  else if bool_decide (status = "inactive"%string) then "secondary"
  else if bool_decide (status = "pending"%string) then "outline"
  else "default".

(** The custom renderer of the status column. It is typed for a string;
    on another value the source fails on [charAt], which the tree cannot
    express, and the model renders an empty badge. *)
Definition statusBadge (status : value) (record : row) (index : nat) : vnode :=
  match status with
  | VStr st =>
      VElem "Badge" [("variant"%string, VStr (badgeVariant st))] None
        [VText (capitalize st)]
  | _ => VElem "Badge" [] None []
  end.

Definition plainColumn (k t : string) : Column :=
  {| key := k; title := t; dataIndex := k; sortable := Some true;
     render := None; width := None; align := None |}.

Definition tableColumns : list Column :=
  [ plainColumn "name" "Name";
    plainColumn "email" "Email";
    plainColumn "role" "Role";
    {| key := "status"; title := "Status"; dataIndex := "status";
       sortable := Some true; render := Some statusBadge;
       width := None; align := None |};
    plainColumn "lastLogin" "Last Login" ].

(** The [useState] cells of the page that the table and the first input
    read, together with the state the mounted table keeps. *)
Record DemoState := {
  basicInput : string;
  tableData : list row;
  isTableLoading : bool;
  selectedRows : list row;
  table : State;
}.

Definition initialDemo : DemoState :=
  {| basicInput := EmptyString; tableData := sampleUsers;
     isTableLoading := false; selectedRows := []; table := initialState |}.

(** The props of [<DataTable ... />]; [onRowSelect] is [setSelectedRows],
    whose effect is the new value of [selectedRows]. *)
Definition tableProps (d : DemoState) : DataTableProps (list row) :=
  {| data := tableData d; columns := tableColumns;
     loading := Some (isTableLoading d); selectable := Some true;
     onRowSelect := Some (λ rows, rows); className := None;
     emptyMessage :=
       Some "No users found. Click 'Restore Data' to reload sample data."%string;
     rowKey := None |}.

(** The props of the first [<InputField ... />]; [onChange] stores
    [e.target.value] in [basicInput]. *)
Definition fullNameProps (d : DemoState) : InputField.InputFieldProps string :=
  {| InputField.value := Some (basicInput d);
     InputField.onChange := Some (λ v, v);
     InputField.label := Some "Full Name"%string;
     InputField.placeholder := Some "Enter your full name"%string;
     InputField.helperText := Some "This is a basic outlined input field"%string;
     InputField.errorMessage := None; InputField.disabled := None;
     InputField.invalid := None; InputField.loading := None;
     InputField.variant := None; InputField.size := None;
     InputField.type := None; InputField.showClearButton := Some true;
     InputField.showPasswordToggle := None; InputField.className := None;
     InputField.id := None; InputField.rest := ∅ |}.

Definition clearTableData (d : DemoState) : DemoState :=
  {| basicInput := basicInput d; tableData := [];
     isTableLoading := isTableLoading d; selectedRows := selectedRows d;
     table := table d |}.

Definition restoreTableData (d : DemoState) : DemoState :=
  {| basicInput := basicInput d; tableData := sampleUsers;
     isTableLoading := isTableLoading d; selectedRows := selectedRows d;
     table := table d |}.

Definition setIsTableLoading (b : bool) (d : DemoState) : DemoState :=
  {| basicInput := basicInput d; tableData := tableData d;
     isTableLoading := b; selectedRows := selectedRows d; table := table d |}.

Definition setBasicInput (v : string) (d : DemoState) : DemoState :=
  {| basicInput := v; tableData := tableData d;
     isTableLoading := isTableLoading d; selectedRows := selectedRows d;
     table := table d |}.

(** The value a state cell has after the setter calls of one event. *)
Definition last_set {A} (current : A) (calls : list A) : A :=
  foldl (λ _ v, v) current calls.

Inductive Event :=
  | ClearData
  | RestoreData
  | TableLoadingStarts
  | TableLoadingEnds
  | TableControl (a : action) (checked : bool)
  | TypeFullName (v : string)
  | ClearFullName.

Definition step (d : DemoState) (e : Event) : DemoState :=
  match e with
  | ClearData => clearTableData d
  | RestoreData => restoreTableData d
  | TableLoadingStarts => setIsTableLoading true d
  | TableLoadingEnds => setIsTableLoading false d
  | TableControl a checked =>
      let '(s', calls) := dispatch (tableProps d) (table d) a checked in
      {| basicInput := basicInput d; tableData := tableData d;
         isTableLoading := isTableLoading d;
         selectedRows := last_set (selectedRows d) calls; table := s' |}
  | TypeFullName v =>
      match InputField.onChange (fullNameProps d) with
      | Some f => setBasicInput (f v) d
      | None => d
      end
  | ClearFullName =>
      setBasicInput (last_set (basicInput d) (InputField.handleClear (fullNameProps d))) d
  end.

Section Page.

Context `{host : Host}.

(** The event can happen: its control is on the page and not disabled. *)
Definition enabled (d : DemoState) (e : Event) : Prop :=
  match e with
  | TableControl a _ => a ∈ actions (DataTable (tableProps d) (table d))
  | ClearFullName =>
      InputField.ClearButton false
      ∈ InputField.icons (fullNameProps d) (InputField.initialState (fullNameProps d))
  | TableLoadingStarts => isTableLoading d = false
  | TableLoadingEnds => isTableLoading d = true
  | ClearData | RestoreData | TypeFullName _ => True
  end.

Inductive reachable : DemoState → Prop :=
  | reachable_initial : reachable initialDemo
  | reachable_step d e : reachable d → enabled d e → reachable (step d e).

End Page.

End Demo.

(** ** Further sample inputs *)

(** A password field with the visibility button, an error message and a
    helper text. *)
Definition sample_password_field : InputField.InputFieldProps string :=
  {| InputField.value := Some "secret"%string;
     InputField.onChange := Some (λ v, v);
     InputField.label := Some "Password"%string;
     InputField.placeholder := None;
     InputField.helperText := Some "At least 8 characters"%string;
     InputField.errorMessage := Some "Too short"%string;
     InputField.disabled := None; InputField.invalid := None;
     InputField.loading := None; InputField.variant := None;
     InputField.size := None; InputField.type := Some InputField.password;
     InputField.showClearButton := None;
     InputField.showPasswordToggle := Some true;
     InputField.className := None; InputField.id := Some "pw"%string;
     InputField.rest := ∅ |}.

(** The same field, by a caller that passes the two [aria-] attributes
    itself. *)
Definition sample_overriding_field : InputField.InputFieldProps string :=
  {| InputField.value := Some "secret"%string;
     InputField.onChange := Some (λ v, v);
     InputField.label := Some "Password"%string;
     InputField.placeholder := None;
     InputField.helperText := Some "At least 8 characters"%string;
     InputField.errorMessage := Some "Too short"%string;
     InputField.disabled := None; InputField.invalid := None;
     InputField.loading := None; InputField.variant := None;
     InputField.size := None; InputField.type := Some InputField.password;
     InputField.showClearButton := None;
     InputField.showPasswordToggle := Some true;
     InputField.className := None; InputField.id := Some "pw"%string;
     InputField.rest :=
       {[ "aria-invalid"%string := VBool false;
          "aria-describedby"%string := VStr "hint" ]} |}.

(** Rows with an [id] and no [age], or with [null] as [age]. *)
Definition ageless (id : Z) : row := {[ "id"%string := VNum id ]}.

Definition null_age (id : Z) : row :=
  {[ "id"%string := VNum id; "age"%string := VNull ]}.

Definition text_age (id : Z) (age : string) : row :=
  {[ "id"%string := VNum id; "age"%string := VStr age ]}.

Definition nan_age (id : Z) : row :=
  {[ "id"%string := VNum id; "age"%string := VNaN ]}.

(** A heap holding the caller's two arrays. *)
Definition sample_heap : heap :=
  {[ 1%positive := RowArray [user 1 30; user 2 20];
     2%positive := ColumnArray [age_column; name_column] ]}.

(** ** Notions used by the further properties *)

(** The number a row holds in [field]; 0 when it holds something else. *)
Definition field_num (field : string) (r : row) : Z :=
  match get_field r field with
  | VNum n => n
  | _ => 0
  end.

Definition numeric_on (field : string) (r : row) : Prop :=
  ∃ n, get_field r field = VNum n.

(** A sort state is either the cleared one or names a sortable column of
    [cols] together with an order. *)
Definition sortState_wf (cols : list Column) (st : SortState) : Prop :=
  st = cleared
  ∨ ∃ col ord, col ∈ cols ∧ truthy_flag (sortable col) = true
      ∧ st = {| column := Some (key col); order := Some ord |}.

Section Runs.

Context `{host : Host} {E : Type}.

(** A sequence of user interactions against fixed props: the states gone
    through and the callback invocations, in order. *)
Fixpoint interact (p : DataTableProps E) (s : State)
    (events : list (action * bool)) : State * list E :=
  match events with
  | [] => (s, [])
  | (a, checked) :: events' =>
      let '(s1, out1) := dispatch p s a checked in
      let '(s2, out2) := interact p s1 events' in
      (s2, out1 ++ out2)
  end.

(** Checkbox interactions, as opposed to header clicks. *)
Definition is_selection_event (e : action * bool) : bool :=
  match e.1 with
  | ClickHeader _ => false
  | CheckAll | CheckRow _ => true
  end.

(** The controls of the header row: the select-all checkbox when the
    table is selectable, then one click target per column. *)
Definition header_controls (p : DataTableProps E) : list action :=
  (if selectable_or_default p then [CheckAll] else [])
  ++ imap (λ i _, ClickHeader i) (columns p).

(** No custom cell renderer of the column list puts a control of the table
    into a cell. *)
Definition renderers_inert (cols : list Column) : Prop :=
  ∀ col f v r i, col ∈ cols → render col = Some f → actions (f v r i) = [].

(** The row key does not depend on the index handed to [getRowKey]: the
    key strategy is a function, or every row has a value in the key field. *)
Definition keys_index_free (p : DataTableProps E) : Prop :=
  match rowKey_or_default p with
  | RowKeyFn _ => True
  | RowKeyField field => Forall (λ r, ¬ nullish_on field r) (data p)
  end.

End Runs.

(** * The engines

    The two sorts written out above obey the laws of [Host], which gives
    two hosts to run the definitions on: both with plain lexicographic
    order as collation and no string that converts to a number, one with
    the insertion sort and one with the sort of a TimSort engine on a short
    array. *)

Section Engines.

Context {A : Type}.

Implicit Types (cmp : A → A → Z) (l run rest sorted : list A).

Lemma sort_insert_perm cmp x l : sort_insert cmp x l ≡ₚ x :: l.
Proof.
  induction l as [|y l IH]; simpl; [done|].
  destruct (0 <? cmp x y); [|done].
  rewrite IH. apply Permutation_swap.
Qed.

Lemma array_sort_perm cmp l : array_sort cmp l ≡ₚ l.
Proof.
  induction l as [|x l IH]; simpl; [done|].
  by rewrite sort_insert_perm, IH.
Qed.

Lemma sort_insert_answered cmp x l :
  Sorted (answered cmp) l → Sorted (answered cmp) (sort_insert cmp x l).
Proof.
  induction 1 as [|y l Hs IH Hy]; simpl; [by repeat constructor|].
  destruct (0 <? cmp x y) eqn:Hxy.
  - apply Z.ltb_lt in Hxy. constructor; [done|].
    destruct Hy as [|z l Hyz]; simpl.
    + constructor. right. lia.
    + destruct (0 <? cmp x z); constructor; [done|]. right. lia.
  - apply Z.ltb_ge in Hxy. constructor; [by constructor|].
    constructor. by left.
Qed.

Lemma array_sort_answered cmp l : Sorted (answered cmp) (array_sort cmp l).
Proof.
  induction l as [|x l IH]; simpl; [constructor|].
  by apply sort_insert_answered.
Qed.

Lemma Sorted_mono (R R' : relation A) l :
  (∀ u v, R u v → R' u v) → Sorted R l → Sorted R' l.
Proof.
  intros Himp. induction 1 as [|x l Hs IH Hx]; constructor; [done|].
  destruct Hx; constructor; auto.
Qed.

(** A direct answer for every neighbouring pair is a chain of length one. *)
Lemma Sorted_members (R : relation A) (S : A → Prop) l :
  Forall S l → Sorted R l → Sorted (λ u v, S u ∧ S v ∧ R u v) l.
Proof.
  intros HS Hs. induction Hs as [|x l Hs IH Hx]; [constructor|].
  apply Forall_cons in HS as [HSx HSl]. constructor; [by apply IH|].
  destruct Hx as [|y l Hxy]; constructor.
  apply Forall_cons in HSl as [HSy _]. done.
Qed.

Lemma answered_justified cmp l out :
  out ≡ₚ l → Sorted (answered cmp) out → Sorted (justified cmp l) out.
Proof.
  intros Hperm Hs.
  apply (Sorted_members _ (λ u, u ∈ l)) in Hs.
  - eapply Sorted_mono; [|exact Hs]. intros u v H. by apply tc_once.
  - apply Forall_forall. intros u Hu. by rewrite <- Hperm.
Qed.

(** The initial run *)

Lemma extend_run_perm cmp descending prev l :
  (extend_run cmp descending prev l).1 ++ (extend_run cmp descending prev l).2 = l.
Proof.
  revert prev. induction l as [|y l IH]; intros prev; [done|].
  simpl. destruct (if descending then _ else _); [|done].
  specialize (IH y). destruct (extend_run cmp descending y l) as [run rest].
  simpl in *. by rewrite IH.
Qed.

Lemma extend_run_ascending cmp prev l :
  Sorted (answered cmp) (prev :: (extend_run cmp false prev l).1).
Proof.
  revert prev. induction l as [|y l IH]; intros prev; simpl.
  - by repeat constructor.
  - destruct (0 <=? cmp y prev) eqn:Hy; [|by repeat constructor].
    apply Z.leb_le in Hy. specialize (IH y).
    destruct (extend_run cmp false y l) as [run rest]. simpl in *.
    constructor; [done|]. constructor. by right.
Qed.

Lemma extend_run_descending cmp prev l :
  Sorted (flip (answered cmp)) (prev :: (extend_run cmp true prev l).1).
Proof.
  revert prev. induction l as [|y l IH]; intros prev; simpl.
  - by repeat constructor.
  - destruct (cmp y prev <? 0) eqn:Hy; [|by repeat constructor].
    apply Z.ltb_lt in Hy. specialize (IH y).
    destruct (extend_run cmp true y l) as [run rest]. simpl in *.
    constructor; [done|]. constructor. left. lia.
Qed.

Lemma count_and_make_run_perm cmp l :
  (count_and_make_run cmp l).1 ++ (count_and_make_run cmp l).2 ≡ₚ l.
Proof.
  destruct l as [|x0 [|x1 l]]; simpl; [by rewrite ?app_nil_r..|].
  pose proof (extend_run_perm cmp (cmp x1 x0 <? 0) x1 l) as Hperm.
  destruct (extend_run cmp (cmp x1 x0 <? 0) x1 l) as [run rest]. simpl in *.
  rewrite <- Hperm.
  destruct (cmp x1 x0 <? 0); simpl; [|done].
  by rewrite reverse_Permutation.
Qed.

Lemma count_and_make_run_answered cmp l :
  Sorted (answered cmp) (count_and_make_run cmp l).1.
Proof.
  destruct l as [|x0 [|x1 l]]; simpl; [by repeat constructor..|].
  destruct (cmp x1 x0 <? 0) eqn:Hd.
  - apply Z.ltb_lt in Hd.
    pose proof (extend_run_descending cmp x1 l) as Hrun.
    destruct (extend_run cmp true x1 l) as [run rest]. simpl in *.
    assert (Hwhole : Sorted (flip (answered cmp)) (x0 :: x1 :: run)).
    { constructor; [done|]. constructor. left. lia. }
    apply Sorted_reverse in Hwhole.
    eapply Sorted_mono; [|exact Hwhole]. by intros u v H.
  - apply Z.ltb_ge in Hd.
    pose proof (extend_run_ascending cmp x1 l) as Hrun.
    destruct (extend_run cmp false x1 l) as [run rest]. simpl in *.
    constructor; [done|]. constructor. by right.
Qed.

(** Binary insertion *)

Lemma binary_search_spec cmp pivot sorted fuel left right :
  (left ≤ right ≤ length sorted)%nat → (right - left ≤ fuel)%nat →
  (left = 0%nat ∨ ∃ y, sorted !! pred left = Some y ∧ 0 ≤ cmp pivot y) →
  (right = length sorted ∨ ∃ y, sorted !! right = Some y ∧ cmp pivot y < 0) →
  let k := binary_search cmp pivot sorted left right fuel in
  (k ≤ length sorted)%nat
  ∧ (k = 0%nat ∨ ∃ y, sorted !! pred k = Some y ∧ 0 ≤ cmp pivot y)
  ∧ (k = length sorted ∨ ∃ y, sorted !! k = Some y ∧ cmp pivot y < 0).
Proof.
  revert left right. induction fuel as [|fuel IH]; intros left right Hb Hf Hl Hr.
  - simpl. assert (left = right) as -> by lia. split; [lia|done].
  - simpl. destruct (left <? right)%nat eqn:Hlt.
    + apply Nat.ltb_lt in Hlt.
      pose proof (Nat.lt_div2 (right - left) ltac:(lia)) as Hdiv.
      remember (Nat.div2 (right - left)) as d eqn:Hd. clear Hd.
      destruct (lookup_lt_is_Some_2 sorted (left + d) ltac:(lia)) as [y Hy].
      rewrite Hy. destruct (cmp pivot y <? 0) eqn:Hc.
      * apply Z.ltb_lt in Hc. apply IH; [lia..|done|].
        right. by exists y.
      * apply Z.ltb_ge in Hc. apply IH; [lia..| |done].
        right. by exists y.
    + apply Nat.ltb_ge in Hlt. assert (left = right) as -> by lia.
      split; [lia|done].
Qed.

Lemma Sorted_insert_at (R : relation A) x k l :
  Sorted R l →
  (k = 0%nat ∨ ∃ y, l !! pred k = Some y ∧ R y x) →
  (k = length l ∨ ∃ y, l !! k = Some y ∧ R x y) →
  Sorted R (take k l ++ x :: drop k l).
Proof.
  intros Hs. revert k. induction Hs as [|z l Hs IH Hz]; intros k Hl Hr.
  - rewrite take_nil, drop_nil. by repeat constructor.
  - destruct k as [|k]; simpl.
    + constructor; [by constructor|]. constructor.
      destruct Hr as [?|(y & [= <-] & Hxy)]; [done|done].
    + assert (Hl' : k = 0%nat ∨ ∃ y, l !! pred k = Some y ∧ R y x).
      { destruct k as [|k]; [by left|]. right.
        destruct Hl as [?|(y & Hy & Hyx)]; [done|]. by exists y. }
      assert (Hr' : k = length l ∨ ∃ y, l !! k = Some y ∧ R x y).
      { destruct Hr as [Hk|(y & Hy & Hxy)]; [left; simpl in Hk; lia|].
        right. by exists y. }
      constructor; [by apply IH|].
      destruct k as [|k]; simpl.
      * constructor. destruct Hl as [?|(y & [= <-] & Hyx)]; done.
      * destruct Hz as [|w l Hzw]; [|by constructor].
        by destruct Hl as [?|(y & Hy & _)].
Qed.

Lemma binary_insert_perm cmp pivot sorted :
  binary_insert cmp pivot sorted ≡ₚ pivot :: sorted.
Proof.
  unfold binary_insert. rewrite <- Permutation_middle.
  by rewrite take_drop.
Qed.

Lemma binary_insert_answered cmp pivot sorted :
  Sorted (answered cmp) sorted →
  Sorted (answered cmp) (binary_insert cmp pivot sorted).
Proof.
  intros Hs. unfold binary_insert.
  destruct (binary_search_spec cmp pivot sorted (length sorted) 0 (length sorted))
    as (_ & Hl & Hr); [lia|lia|by left|by left|].
  apply Sorted_insert_at; [done| |].
  - destruct Hl as [?|(y & Hy & Hc)]; [by left|]. right. exists y.
    split; [done|]. by right.
  - destruct Hr as [?|(y & Hy & Hc)]; [by left|]. right. exists y.
    split; [done|]. left. lia.
Qed.

Lemma binary_insertion_sort_perm cmp l : binary_insertion_sort cmp l ≡ₚ l.
Proof.
  unfold binary_insertion_sort.
  pose proof (count_and_make_run_perm cmp l) as Hperm.
  destruct (count_and_make_run cmp l) as [run rest]. simpl in Hperm.
  rewrite <- Hperm. clear Hperm. revert run.
  induction rest as [|x rest IH]; intros run; simpl; [by rewrite app_nil_r|].
  rewrite IH, binary_insert_perm. simpl. apply Permutation_middle.
Qed.

Lemma binary_insertion_sort_answered cmp l :
  Sorted (answered cmp) (binary_insertion_sort cmp l).
Proof.
  unfold binary_insertion_sort.
  pose proof (count_and_make_run_answered cmp l) as Hrun.
  destruct (count_and_make_run cmp l) as [run rest]. simpl in Hrun.
  revert run Hrun. induction rest as [|x rest IH]; intros run Hrun; [done|].
  simpl. by apply IH, binary_insert_answered.
Qed.

End Engines.

(** A host with the insertion sort. *)
Definition sample_host : Host :=
  {| localeCompare s t :=
       match String.compare s t with Lt => -1 | Eq => 0 | Gt => 1 end;
     StringToNumber _ := None;
     engine_sort := array_sort;
     engine_sort_perm := array_sort_perm;
     engine_sort_justified cmp l :=
       answered_justified cmp l _ (array_sort_perm cmp l) (array_sort_answered cmp l) |}.

(** The same host with the sort of a TimSort engine on a short array. *)
Definition short_array_host : Host :=
  {| localeCompare := localeCompare (Host := sample_host);
     StringToNumber := StringToNumber (Host := sample_host);
     engine_sort := binary_insertion_sort;
     engine_sort_perm := binary_insertion_sort_perm;
     engine_sort_justified cmp l :=
       answered_justified cmp l _ (binary_insertion_sort_perm cmp l)
         (binary_insertion_sort_answered cmp l) |}.

(** * Properties *)

Section Properties.

Context `{host : Host} {E : Type}.

Implicit Types (p : DataTableProps E) (s : State) (c col : Column).

(** ** What the engine's sort guarantees *)

Lemma justified_closed {A} (cmp : A → A → Z) (l : list A) (Q : A → Prop) u v :
  (∀ a b, a ∈ l → b ∈ l → Q a → answered cmp a b → Q b) →
  justified cmp l u v → Q u → Q v.
Proof.
  intros Hstep Huv. induction Huv as [u v (Hu & Hv & Hans)|u w v (Hu & Hw & Hans) _ IH].
  - intros HQ. by apply (Hstep u v).
  - intros HQ. apply IH. by apply (Hstep u w).
Qed.

Lemma Sorted_closed {A} (R : relation A) (Q : A → Prop) x l :
  (∀ u v, R u v → Q u → Q v) → Q x → HdRel R x l → Sorted R l → Forall Q l.
Proof.
  intros Hstep HQ Hx Hs. revert x HQ Hx.
  induction Hs as [|y l Hs IH Hy]; intros x HQ Hx; [constructor|].
  apply HdRel_inv in Hx. assert (Q y) by by apply (Hstep x y).
  constructor; [done|]. by apply (IH y).
Qed.

Lemma filter_all {A} (P : A → Prop) `{!∀ x, Decision (P x)} (l : list A) :
  Forall P l → filter P l = l.
Proof.
  induction 1 as [|x l Hx _ IH]; [done|].
  rewrite filter_cons, decide_True by done. by f_equal.
Qed.

Lemma filter_none {A} (P : A → Prop) `{!∀ x, Decision (P x)} (l : list A) :
  Forall (λ x, ¬ P x) l → filter P l = [].
Proof.
  induction 1 as [|x l Hx _ IH]; [done|].
  by rewrite filter_cons, decide_False.
Qed.

(** When no answer of the comparator allows an element outside a class
    before an element of the class, every arrangement the engine can return
    has the class first. *)
Lemma justified_partition {A} (cmp : A → A → Z) (P : A → Prop)
    `{!∀ x, Decision (P x)} (l out : list A) :
  (∀ a b, P a → ¬ P b → ¬ answered cmp b a) →
  Sorted (justified cmp l) out →
  out = filter P out ++ filter (λ x, ¬ P x) out.
Proof.
  intros Hsep. induction 1 as [|x out Hs IH Hx]; [done|].
  rewrite !filter_cons. destruct (decide (P x)) as [HPx|HPx].
  - rewrite decide_False by tauto. simpl. by f_equal.
  - rewrite decide_True by done.
    assert (Hnone : Forall (λ y, ¬ P y) out).
    { apply (Sorted_closed (justified cmp l) (λ y, ¬ P y) x); [|done..].
      intros u v Huv Hu.
      apply (justified_closed cmp l (λ y, ¬ P y) u v); [|done..].
      intros a b _ _ Ha Hans Hb. by apply (Hsep b a). }
    by rewrite (filter_none P), (filter_all (λ y, ¬ P y)).
Qed.

(** ** The comparator *)

Lemma strict_eq_nullish a b :
  strict_eq a b = true → is_nullish a = is_nullish b.
Proof.
  unfold strict_eq. destruct a, b; try done;
    intros H%bool_decide_eq_true; by simplify_eq.
Qed.

Lemma compareRows_equal ord field a b :
  strict_eq (get_field a field) (get_field b field) = true →
  compareRows ord field a b = 0.
Proof. intros Heq. unfold compareRows. by rewrite Heq. Qed.

Lemma compareRows_desc field a b :
  compareRows desc field a b = - compareRows asc field a b.
Proof.
  unfold compareRows. by destruct (strict_eq _ _).
Qed.

Lemma compareRows_nullish_first field a b :
  strict_eq (get_field a field) (get_field b field) = false →
  nullish_on field a → compareRows asc field a b = -1.
Proof.
  unfold nullish_on, compareRows. intros Hne Ha. by rewrite Hne, Ha.
Qed.

Lemma compareRows_nullish_left field a b :
  nullish_on field a → ¬ nullish_on field b → compareRows asc field a b = -1.
Proof.
  intros Ha Hb. apply compareRows_nullish_first; [|done].
  apply not_true_is_false. intros Heq%strict_eq_nullish.
  unfold nullish_on in *. congruence.
Qed.

Lemma compareRows_nullish_right field a b :
  ¬ nullish_on field a → nullish_on field b → compareRows asc field a b = 1.
Proof.
  intros Ha Hb.
  assert (strict_eq (get_field a field) (get_field b field) = false) as Hne.
  { apply not_true_is_false. intros Heq%strict_eq_nullish.
    unfold nullish_on in *. congruence. }
  unfold nullish_on, compareRows in *. rewrite Hne.
  apply not_true_is_false in Ha. by rewrite Ha, Hb.
Qed.

Lemma compareRows_strings field a b x y :
  get_field a field = VStr x → get_field b field = VStr y → x ≠ y →
  compareRows asc field a b = localeCompare x y.
Proof.
  unfold compareRows, strict_eq. intros -> -> Hne.
  rewrite bool_decide_eq_false_2 by congruence. done.
Qed.

Lemma compareRows_generic field a b :
  strict_eq (get_field a field) (get_field b field) = false →
  ¬ nullish_on field a → ¬ nullish_on field b →
  ¬ (∃ x y, get_field a field = VStr x ∧ get_field b field = VStr y) →
  compareRows asc field a b
  = if js_lt (get_field a field) (get_field b field) then -1 else 1.
Proof.
  unfold nullish_on, compareRows. intros Hne Ha Hb Hstr. rewrite Hne.
  apply not_true_is_false in Ha, Hb. rewrite Ha, Hb.
  destruct (get_field a field), (get_field b field); try done.
  destruct Hstr; eauto.
Qed.

(** No answer of the comparator allows a defined value before a null or
    absent one in ascending order, nor the reverse in descending order. *)
Lemma compareRows_separates ord field a b :
  nullish_on field a → ¬ nullish_on field b →
  match ord with
  | asc => ¬ answered (compareRows asc field) b a
  | desc => ¬ answered (compareRows desc field) a b
  end.
Proof.
  intros Ha Hb. unfold answered. destruct ord.
  - rewrite (compareRows_nullish_right _ b a), (compareRows_nullish_left _ a b)
      by done. lia.
  - rewrite !compareRows_desc.
    rewrite (compareRows_nullish_right _ b a), (compareRows_nullish_left _ a b)
      by done. lia.
Qed.

Lemma sortedData_active data cols st id ord col :
  column st = Some id → id ≠ EmptyString → order st = Some ord →
  find_column cols id = Some col →
  sortedData data cols st = engine_sort (compareRows ord (dataIndex col)) data.
Proof.
  intros Hc Hid Ho Hf. unfold sortedData. rewrite Hc, Ho, Hf. simpl.
  by rewrite bool_decide_eq_false_2.
Qed.

(** Whatever the engine's sort does with the comparator, the rows with a
    null or absent value end up on one side. *)
Lemma engine_sort_nulls_placement ord field data :
  let out := engine_sort (compareRows ord field) data in
  out = match ord with
        | asc => filter (nullish_on field) out
                 ++ filter (λ r, ¬ nullish_on field r) out
        | desc => filter (λ r, ¬ nullish_on field r) out
                  ++ filter (nullish_on field) out
        end.
Proof.
  intros out. pose proof (engine_sort_justified (compareRows ord field) data) as Hs.
  fold out in Hs. destruct ord.
  - apply (justified_partition (compareRows asc field) (nullish_on field) data);
      [|done].
    intros a b Ha Hb. by apply (compareRows_separates asc).
  - rewrite (justified_partition (compareRows desc field)
               (λ r, ¬ nullish_on field r) data out) at 1.
    + f_equal. apply list_filter_iff. intros r.
      destruct (decide (nullish_on field r)); tauto.
    + intros a b Ha Hb. apply dec_stable in Hb.
      by apply (compareRows_separates desc field b a).
    + done.
Qed.

(** C1. The comparator of [sortedData] answers 0 for two strictly equal
    field values; otherwise a null or absent value is below the other value,
    two strings are compared with [localeCompare], any other pair with [<];
    descending order negates the result. The sorted view is what the
    engine's sort returns for this comparator, and whatever that sort does
    where the comparator contradicts itself, the rows with a null or absent
    value in the active column come first when the order is ascending and
    last when it is descending. *)
Theorem sortedData_comparator_and_nulls data cols st id ord col :
  column st = Some id → id ≠ EmptyString → order st = Some ord →
  find_column cols id = Some col →
  let field := dataIndex col in
  sortedData data cols st = engine_sort (compareRows ord field) data
  ∧ (∀ a b, strict_eq (get_field a field) (get_field b field) = true →
       compareRows ord field a b = 0)
  ∧ (∀ a b, strict_eq (get_field a field) (get_field b field) = false →
       nullish_on field a → compareRows asc field a b = -1)
  ∧ (∀ a b, ¬ nullish_on field a → nullish_on field b →
       compareRows asc field a b = 1)
  ∧ (∀ a b x y, get_field a field = VStr x → get_field b field = VStr y → x ≠ y →
       compareRows asc field a b = localeCompare x y)
  ∧ (∀ a b, strict_eq (get_field a field) (get_field b field) = false →
       ¬ nullish_on field a → ¬ nullish_on field b →
       ¬ (∃ x y, get_field a field = VStr x ∧ get_field b field = VStr y) →
       compareRows asc field a b
       = if js_lt (get_field a field) (get_field b field) then -1 else 1)
  ∧ (∀ a b, compareRows desc field a b = - compareRows asc field a b)
  ∧ ∃ nulls defined,
      nulls ≡ₚ filter (nullish_on field) data
      ∧ defined ≡ₚ filter (λ r, ¬ nullish_on field r) data
      ∧ sortedData data cols st
        = match ord with
          | asc => nulls ++ defined
          | desc => defined ++ nulls
          end.
Proof.
  intros Hc Hid Ho Hf field.
  assert (Hview := sortedData_active data cols st id ord col Hc Hid Ho Hf).
  fold field in Hview.
  split; [done|]. split; [apply compareRows_equal|].
  split; [apply compareRows_nullish_first|].
  split; [apply compareRows_nullish_right|].
  split; [apply compareRows_strings|].
  split; [apply compareRows_generic|].
  split; [apply compareRows_desc|].
  rewrite Hview.
  set (out := engine_sort (compareRows ord field) data).
  exists (filter (nullish_on field) out), (filter (λ r, ¬ nullish_on field r) out).
  assert (Hperm : out ≡ₚ data) by apply engine_sort_perm.
  split; [by rewrite Hperm|]. split; [by rewrite Hperm|].
  apply engine_sort_nulls_placement.
Qed.

(** ** The sort cycle *)

(** C2. From a state in which a sortable column is not the active one (or
    carries no order, as in the cleared state), three clicks on it give, in
    turn, the column ascending, the column descending and the cleared state;
    a click on a column that is not marked sortable changes nothing. *)
Theorem handleSort_three_phase_cycle c s :
  (truthy_flag (sortable c) = true →
   column (sortState s) ≠ Some (key c) ∨ order (sortState s) = None →
   sortState (handleSort c s) = {| column := Some (key c); order := Some asc |}
   ∧ sortState (handleSort c (handleSort c s))
     = {| column := Some (key c); order := Some desc |}
   ∧ sortState (handleSort c (handleSort c (handleSort c s))) = cleared)
  ∧ (truthy_flag (sortable c) = false → handleSort c s = s).
Proof.
  split.
  - intros Hsort Hstart.
    assert (H1 : sortState (handleSort c s)
                 = {| column := Some (key c); order := Some asc |}).
    { unfold handleSort. rewrite Hsort. simpl. unfold nextSortState.
      destruct Hstart as [Hne|Hnone].
      - by rewrite bool_decide_eq_false_2.
      - rewrite Hnone. by case_bool_decide. }
    assert (H2 : sortState (handleSort c (handleSort c s))
                 = {| column := Some (key c); order := Some desc |}).
    { unfold handleSort at 1. rewrite Hsort. simpl. rewrite H1.
      unfold nextSortState. simpl. by rewrite bool_decide_eq_true_2. }
    split; [done|]. split; [done|].
    unfold handleSort at 1. rewrite Hsort. simpl. rewrite H2.
    unfold nextSortState. simpl. by rewrite bool_decide_eq_true_2.
  - intros Hsort. unfold handleSort. by rewrite Hsort.
Qed.

(** C10. When the active column identifier matches no descriptor of the
    column list, [sortedData] returns the rows as they were given, which is
    also what it returns without an active sort column. *)
Theorem sortedData_unknown_column data cols st id :
  column st = Some id → find_column cols id = None →
  sortedData data cols st = data
  ∧ sortedData data cols st = sortedData data cols cleared.
Proof.
  intros Hc Hf. unfold sortedData. rewrite Hc, Hf. simpl.
  split; destruct (negb _ || negb _); by destruct (order st).
Qed.

(** ** Selection *)

Lemma handleRowSelect_sortState p s k selected :
  sortState (handleRowSelect p s k selected).1 = sortState s.
Proof. unfold handleRowSelect. by destruct (onRowSelect p). Qed.

(** C7. A click on a header leaves the selection set as it was, and a
    change of one row's selection leaves the sort state as it was. *)
Theorem sort_and_selection_independent p s c k selected :
  selectedRowKeys (handleSort c s) = selectedRowKeys s
  ∧ sortState (handleRowSelect p s k selected).1 = sortState s.
Proof.
  split.
  - unfold handleSort. by destruct (negb _).
  - apply handleRowSelect_sortState.
Qed.

Lemma handleRowSelect_keys p s k selected :
  selectedRowKeys (handleRowSelect p s k selected).1
  = if selected then selectedRowKeys s ∪ {[k]} else selectedRowKeys s ∖ {[k]}.
Proof. unfold handleRowSelect. by destruct (onRowSelect p). Qed.

(** C4, as amended. Selecting a key and then deselecting it leaves the
    selection set without that key: the prior set is restored exactly when
    the key was not selected before. *)
Theorem select_then_deselect p s k :
  let s2 := (handleRowSelect p (handleRowSelect p s k true).1 k false).1 in
  selectedRowKeys s2 = selectedRowKeys s ∖ {[k]}
  ∧ (k ∉ selectedRowKeys s → s2 = s).
Proof.
  intros s2.
  assert (Hkeys : selectedRowKeys s2 = selectedRowKeys s ∖ {[k]}).
  { unfold s2. rewrite !handleRowSelect_keys. set_solver. }
  split; [done|]. intros Hk.
  assert (Hsort : sortState s2 = sortState s).
  { unfold s2. by rewrite !handleRowSelect_sortState. }
  destruct s2 as [st2 keys2], s as [st keys]; simpl in *. subst.
  f_equal. set_solver.
Qed.

(** C5, as amended. When the keys of a non-empty row collection are
    pairwise distinct, selecting all makes the selection set the set of all
    row keys and [isAllSelected] true; deselecting all then empties the set
    and makes both [isAllSelected] and [isIndeterminate] false. The second
    half needs neither assumption. *)
Theorem select_all_then_none p s :
  let s1 := (handleSelectAll p s true).1 in
  let s2 := (handleSelectAll p s1 false).1 in
  selectedRowKeys s1 = list_to_set (rowKeys p)
  ∧ (data p ≠ [] → NoDup (rowKeys p) → isAllSelected p s1 = true)
  ∧ selectedRowKeys s2 = ∅
  ∧ isAllSelected p s2 = false
  ∧ isIndeterminate p s2 = false.
Proof.
  intros s1 s2.
  assert (H1 : selectedRowKeys s1 = list_to_set (rowKeys p)) by done.
  assert (H2 : selectedRowKeys s2 = ∅) by done.
  split; [done|]. split.
  - intros Hne Hnd. unfold isAllSelected. rewrite H1.
    rewrite size_list_to_set by done.
    unfold rowKeys. rewrite length_imap.
    apply andb_true_iff. split; apply bool_decide_eq_true_2; [|done].
    destruct (data p); [done|simpl; lia].
  - split; [done|]. unfold isAllSelected, isIndeterminate. rewrite H2.
    rewrite size_empty. split.
    + apply andb_false_iff.
      destruct (data p); [left|right]; apply bool_decide_eq_false_2; simpl; lia.
    + apply andb_false_iff. left. apply bool_decide_eq_false_2. lia.
Qed.

Lemma filter_from_indexed {A} (f : A → nat → bool) off (l : list A) :
  filter_from f off l
  = (filter (λ ir, f ir.2 ir.1 = true) (imap (λ i x, ((off + i)%nat, x)) l)).*2.
Proof.
  revert off. induction l as [|x l IH]; intros off; [done|].
  rewrite imap_cons, filter_cons. simpl.
  replace (off + 0)%nat with off by lia.
  rewrite (imap_ext _ (λ i x, ((S off + i)%nat, x))).
  2:{ intros i y _. simpl. f_equal. lia. }
  rewrite IH. destruct (f x off) eqn:Hf.
  - by rewrite decide_True.
  - rewrite decide_False; [done|congruence].
Qed.

(** C3, as amended. With a callback, changing one row's selection invokes
    it once, with the rows of [data] whose key, computed with the row's
    index in [data], is in the updated selection set, listed in the order of
    [data]. *)
Theorem handleRowSelect_callback_rows p s k selected callback :
  onRowSelect p = Some callback →
  ∃ sel : list (nat * row),
    (handleRowSelect p s k selected).2 = [callback sel.*2]
    ∧ sublist sel (imap pair (data p))
    ∧ ∀ i r, (i, r) ∈ sel
        ↔ data p !! i = Some r
          ∧ getRowKey p r i ∈ selectedRowKeys (handleRowSelect p s k selected).1.
Proof.
  intros Hcb. rewrite handleRowSelect_keys.
  set (keys' := if selected then _ else _).
  exists (filter (λ ir, set_has keys' (getRowKey p ir.2 ir.1) = true)
            (imap pair (data p))).
  split; [|split].
  - unfold handleRowSelect. rewrite Hcb. simpl. fold keys'.
    unfold array_filter.
    by rewrite (filter_from_indexed
                  (λ record index, set_has keys' (getRowKey p record index))).
  - apply sublist_filter.
  - intros i r. rewrite list_elem_of_filter. simpl.
    unfold set_has. rewrite bool_decide_eq_true.
    rewrite elem_of_lookup_imap. split.
    + intros [Hin (j & y & Heq & Hj)]. by simplify_eq.
    + intros [Hi Hin]. eauto.
Qed.

(** ** Rendering *)

Lemma count_tag_elem t tag attrs on children :
  count_tag t (VElem tag attrs on children)
  = ((if bool_decide (tag = t) then 1 else 0)
     + sum_list (count_tag t <$> children))%nat.
Proof.
  simpl. f_equal. induction children as [|n l IH]; [done|].
  simpl. by rewrite IH.
Qed.

Lemma texts_elem tag attrs on children :
  texts (VElem tag attrs on children) = concat (texts <$> children).
Proof.
  simpl. induction children as [|n l IH]; [done|].
  simpl. by rewrite IH.
Qed.

Local Arguments count_tag : simpl never.
Local Arguments texts : simpl never.

Lemma sum_list_append (l k : list nat) :
  sum_list (l ++ k) = (sum_list l + sum_list k)%nat.
Proof. induction l as [|n l IH]; simpl; [done|]. rewrite IH. lia. Qed.

Lemma texts_in_child x tag attrs on children (n : vnode) :
  n ∈ children → x ∈ texts n → x ∈ texts (VElem tag attrs on children).
Proof.
  rewrite texts_elem. intros Hn Hx.
  induction Hn as [n l|n d l Hn IH]; simpl; apply elem_of_app; auto.
Qed.

Lemma count_tag_imap {A} t (f : nat → A → vnode) (l : list A) :
  (∀ i x, count_tag t (f i x) = 0%nat) →
  sum_list (count_tag t <$> imap f l) = 0%nat.
Proof.
  revert f. induction l as [|x l IH]; intros f Hf; [done|].
  rewrite imap_cons. simpl. rewrite Hf. simpl. apply IH.
  intros i y. apply Hf.
Qed.

(** The header row holds none of the marks of the table frame, the
    placeholder row or the empty panel. *)
Lemma headerRow_marks p s t :
  t ∈ ["table"%string; "Loader2"%string; "Database"%string; "tbody"%string] →
  count_tag t (headerRow p s) = 0%nat.
Proof.
  intros Ht. unfold headerRow.
  rewrite count_tag_elem, fmap_app, sum_list_append, (count_tag_imap t).
  - repeat (apply elem_of_cons in Ht as [->|Ht]); try by apply elem_of_nil in Ht.
    all: by destruct (selectable_or_default p).
  - intros i col. unfold renderSortIcon.
    repeat (apply elem_of_cons in Ht as [->|Ht]); try by apply elem_of_nil in Ht.
    all: destruct (negb (truthy_flag _)); [done|].
    all: destruct (negb (bool_decide _)); [done|].
    all: by destruct (bool_decide (order _ = _)).
Qed.

Lemma headerRow_cells p s :
  length (node_children (headerRow p s))
  = ((if selectable_or_default p then 1 else 0) + length (columns p))%nat.
Proof.
  unfold headerRow. simpl. rewrite length_app, length_imap.
  by destruct (selectable_or_default p).
Qed.

Lemma tableView_observed p s body :
  body_rows (tableView p s body) = Some body
  ∧ header_cells (tableView p s body) = Some (node_children (headerRow p s)).
Proof. done. Qed.

Lemma bodyRow_keys p s (view : list row) :
  row_key <$> imap (bodyRow p s) view
  = Some <$> imap (λ index record, getRowKey p record index) view.
Proof.
  apply list_eq. intros i.
  rewrite !list_lookup_fmap, !list_lookup_imap.
  by destruct (view !! i).
Qed.

Lemma imap_keyed {A} (f : nat → A → vnode) (l : list A) :
  (∀ i x, is_Some (row_key (f i x))) →
  forallb (λ r, bool_decide (is_Some (row_key r))) (imap f l) = true.
Proof.
  revert f. induction l as [|x l IH]; intros f Hkey; [done|].
  rewrite imap_cons. simpl. rewrite bool_decide_eq_true_2 by apply Hkey.
  apply IH. intros i y. apply Hkey.
Qed.

Lemma bodyRow_keyed p s (view : list row) :
  forallb (λ r, bool_decide (is_Some (row_key r))) (imap (bodyRow p s) view) = true.
Proof. apply imap_keyed. intros i r. by eexists. Qed.

(** C8. The render takes exactly one of three branches: loading whenever
    the loading flag is set, also without rows; empty when it is not set
    and there are no rows; populated otherwise. What the output shows is
    that branch. Loading: a table whose body is one row without a row key
    that holds the spinner and the text "Loading data...", under the header
    row, and nothing of the empty panel. Empty: no table, no header cell,
    no checkbox, no spinner, and as texts the heading and the caller's
    message (or the default one). Populated: a table whose body has one
    keyed row per row of the sorted view, in that order, under the header
    row. *)
Theorem renderState_decides_output p s :
  (renderState p = Loading ↔ loading_or_default p = true)
  ∧ (renderState p = Empty ↔ loading_or_default p = false ∧ data p = [])
  ∧ (renderState p = Populated ↔ loading_or_default p = false ∧ data p ≠ [])
  ∧ DataTable p s
    = match renderState p with
      | Loading => tableView p s [loadingRow p]
      | Empty => emptyPanel p
      | Populated =>
          tableView p s
            (imap (bodyRow p s) (sortedData (data p) (columns p) (sortState s)))
      end
  ∧ texts (emptyPanel p)
    = ["No Data"%string; default "No data available"%string (emptyMessage p)]
  ∧ count_tag "th" (emptyPanel p) = 0%nat
  ∧ count_tag "Checkbox" (emptyPanel p) = 0%nat
  ∧ count_tag "table" (emptyPanel p) = 0%nat
  ∧ observed_state (DataTable p s) = renderState p
  ∧ match renderState p with
    | Loading =>
        count_tag "table" (DataTable p s) = 1%nat
        ∧ count_tag "tbody" (DataTable p s) = 1%nat
        ∧ count_tag "Loader2" (DataTable p s) = 1%nat
        ∧ count_tag "Database" (DataTable p s) = 0%nat
        ∧ "Loading data..."%string ∈ texts (DataTable p s)
        ∧ (∃ placeholder,
             body_rows (DataTable p s) = Some [placeholder]
             ∧ row_key placeholder = None
             ∧ count_tag "Loader2" placeholder = 1%nat)
        ∧ length <$> header_cells (DataTable p s)
          = Some ((if selectable_or_default p then 1 else 0)
                  + length (columns p))%nat
    | Empty =>
        body_rows (DataTable p s) = None
        ∧ header_cells (DataTable p s) = None
        ∧ texts (DataTable p s)
          = ["No Data"%string; default "No data available"%string (emptyMessage p)]
        ∧ count_tag "th" (DataTable p s) = 0%nat
        ∧ count_tag "Checkbox" (DataTable p s) = 0%nat
        ∧ count_tag "table" (DataTable p s) = 0%nat
        ∧ count_tag "Loader2" (DataTable p s) = 0%nat
    | Populated =>
        (∃ rows,
           body_rows (DataTable p s) = Some rows
           ∧ row_key <$> rows
             = Some <$> imap (λ index record, getRowKey p record index)
                          (sortedData (data p) (columns p) (sortState s)))
        ∧ length <$> header_cells (DataTable p s)
          = Some ((if selectable_or_default p then 1 else 0)
                  + length (columns p))%nat
    end.
Proof.
  assert (Hmarks : ∀ t,
            t ∈ ["table"%string; "Loader2"%string; "Database"%string; "tbody"%string] →
            count_tag t (tableView p s [loadingRow p])
            = ((if bool_decide ("table"%string = t) then 1 else 0)
               + ((if bool_decide ("tbody"%string = t) then 1 else 0)
                  + count_tag t (loadingRow p)))%nat).
  { intros t Ht. unfold tableView.
    rewrite count_tag_elem. simpl. rewrite count_tag_elem. simpl.
    rewrite count_tag_elem. simpl. rewrite count_tag_elem. simpl.
    rewrite (headerRow_marks p s t Ht).
    rewrite (count_tag_elem t "tbody"). simpl.
    repeat (apply elem_of_cons in Ht as [->|Ht]); try by apply elem_of_nil in Ht.
    all: match goal with
         | |- context [count_tag ?t' (loadingRow ?q)] =>
             generalize (count_tag t' (loadingRow q)); intros n
         end.
    all: repeat case_bool_decide; first [congruence | lia]. }
  unfold renderState, observed_state, DataTable, bodyRows.
  destruct (loading_or_default p) eqn:Hl; simpl.
  - repeat split; try done; try (intros []; done).
    + rewrite Hmarks by set_solver. done.
    + rewrite Hmarks by set_solver. done.
    + rewrite Hmarks by set_solver. done.
    + rewrite Hmarks by set_solver. done.
    + unfold tableView, loadingRow.
      eapply texts_in_child; [apply list_elem_of_here|].
      eapply texts_in_child; [apply list_elem_of_here|].
      eapply texts_in_child; [apply list_elem_of_further, list_elem_of_here|].
      eapply texts_in_child; [apply list_elem_of_here|].
      eapply texts_in_child; [apply list_elem_of_here|].
      eapply texts_in_child; [apply list_elem_of_here|].
      eapply texts_in_child; [apply list_elem_of_further, list_elem_of_here|].
      eapply texts_in_child; [apply list_elem_of_here|].
      apply list_elem_of_here.
    + by eexists.
    + exact (f_equal Some (headerRow_cells p s)).
  - destruct (data p) as [|r rows] eqn:Hd; simpl.
    + repeat split; try done; intros []; done.
    + rewrite bodyRow_keyed.
      repeat split; try done; try (intros []; done).
      * eexists. split; [done|]. apply bodyRow_keys.
      * exact (f_equal Some (headerRow_cells p s)).
Qed.

(** ** The caller's arrays *)

Lemma alloc_extends (v : cell) (h : heap) : h ⊆ (alloc v h).2.
Proof.
  unfold alloc. simpl. apply insert_subseteq.
  apply not_elem_of_dom, is_fresh.
Qed.

Lemma sortedData_mem_extends dataRef columnsRef st (h : heap) :
  h ⊆ (sortedData_mem dataRef columnsRef st h).2.
Proof.
  unfold sortedData_mem.
  destruct (negb _ || negb _); [done|].
  destruct (column st) as [id|]; [|done].
  destruct (order st) as [ord|]; [|done].
  destruct (find_column _ id) as [col|]; [|done].
  unfold array_spread, alloc, array_sort_in_place. simpl.
  rewrite insert_insert_eq. apply insert_subseteq.
  apply not_elem_of_dom, is_fresh.
Qed.

(** The array [sortedData_mem] returns holds what [sortedData] computes
    from the contents of the caller's arrays. *)
Lemma sortedData_mem_refines dataRef columnsRef st (h : heap) :
  let '(r, h') := sortedData_mem dataRef columnsRef st h in
  read_rows h' r
  = sortedData (read_rows h dataRef) (read_columns h columnsRef) st.
Proof.
  unfold sortedData_mem, sortedData.
  destruct (negb _ || negb _); [done|].
  destruct (column st) as [id|]; [|done].
  destruct (order st) as [ord|]; [|done].
  destruct (find_column _ id) as [col|]; [|done].
  unfold array_spread, alloc, array_sort_in_place, read_rows at 1. simpl.
  rewrite lookup_insert_eq. f_equal.
  unfold read_rows at 1. by rewrite lookup_insert_eq.
Qed.

Lemma handleRowSelect_mem_extends p dataRef s k selected (h : heap) :
  h ⊆ (handleRowSelect_mem p dataRef s k selected h).2.
Proof.
  unfold handleRowSelect_mem. destruct (onRowSelect p); [|done].
  apply alloc_extends.
Qed.

Lemma handleSelectAll_mem_extends p dataRef s selected (h : heap) :
  h ⊆ (handleSelectAll_mem p dataRef s selected h).2.
Proof.
  unfold handleSelectAll_mem. destruct selected; [done|].
  destruct (onRowSelect p); [|done]. apply alloc_extends.
Qed.

Lemma step_mem_extends p dataRef columnsRef i s (h : heap) :
  h ⊆ (step_mem p dataRef columnsRef i (s, h)).2.
Proof.
  destruct i as [|[n| |k] checked]; simpl.
  - apply sortedData_mem_extends.
  - by destruct (read_columns h columnsRef !! n).
  - pose proof (handleSelectAll_mem_extends p dataRef s checked h) as H.
    by destruct (handleSelectAll_mem p dataRef s checked h) as [[s' cbs] h'].
  - pose proof (handleRowSelect_mem_extends p dataRef s k checked h) as H.
    by destruct (handleRowSelect_mem p dataRef s k checked h) as [[s' cbs] h'].
Qed.

Lemma run_mem_extends p dataRef columnsRef events s (h : heap) :
  h ⊆ (run_mem p dataRef columnsRef events (s, h)).2.
Proof.
  unfold run_mem. revert s h.
  induction events as [|i events IH]; intros s h; [done|].
  cbn [foldl].
  pose proof (step_mem_extends p dataRef columnsRef i s h) as Hstep.
  destruct (step_mem p dataRef columnsRef i (s, h)) as [s1 h1].
  etrans; [exact Hstep|]. apply IH.
Qed.

(** C9. Whatever sequence of renders, header clicks and selection changes
    the component goes through, every array that existed before still holds
    the same elements in the same order afterwards; in particular the
    caller's rows and column descriptors. The sorted view is written into a
    fresh copy. *)
Theorem caller_arrays_never_mutated p dataRef columnsRef events s (h : heap) :
  let h' := (run_mem p dataRef columnsRef events (s, h)).2 in
  h ⊆ h'
  ∧ (∀ rows, h !! dataRef = Some (RowArray rows) → read_rows h' dataRef = rows)
  ∧ (∀ cols, h !! columnsRef = Some (ColumnArray cols) →
       read_columns h' columnsRef = cols).
Proof.
  intros h'.
  assert (Hsub : h ⊆ h') by apply run_mem_extends.
  split; [done|]. split.
  - intros rows Hrows. unfold read_rows.
    by rewrite (lookup_weaken _ _ _ _ Hrows Hsub).
  - intros cols Hcols. unfold read_columns.
    by rewrite (lookup_weaken _ _ _ _ Hcols Hsub).
Qed.

End Properties.

(** * The properties on the sample inputs *)

Lemma sortedData_comparator_and_nulls_witness :
  ∃ nulls defined,
    nulls ≡ₚ filter (nullish_on "age") [ageless 1; user 4 20; null_age 2; ageless 3]
    ∧ defined ≡ₚ filter (λ r, ¬ nullish_on "age" r)
                   [ageless 1; user 4 20; null_age 2; ageless 3]
    ∧ sortedData (host:=short_array_host)
        [ageless 1; user 4 20; null_age 2; ageless 3]
        [age_column; name_column]
        {| column := Some "age"%string; order := Some desc |}
      = defined ++ nulls.
Proof.
  destruct (sortedData_comparator_and_nulls (host:=short_array_host)
              [ageless 1; user 4 20; null_age 2; ageless 3]
              [age_column; name_column]
              {| column := Some "age"%string; order := Some desc |}
              "age" desc age_column)
    as (_ & _ & _ & _ & _ & _ & _ & H).
  - reflexivity.
  - discriminate.
  - reflexivity.
  - reflexivity.
  - exact H.
Defined.

(** Where the comparator is not consistent, the arrangement is the
    engine's choice. A missing and a [null] age each answer "before" to the
    other, a number and a text that is no number each answer "after", and
    NaN answers "after" to everything, itself included. On such rows the
    two sample engines return different arrangements; in each of them the
    nullish rows still come first. *)
Lemma compareRows_not_consistent :
  compareRows (host:=sample_host) asc "age" (ageless 1) (null_age 2) = -1
  ∧ compareRows (host:=sample_host) asc "age" (null_age 2) (ageless 1) = -1
  ∧ compareRows (host:=sample_host) asc "age" (user 1 5) (text_age 2 "abc") = 1
  ∧ compareRows (host:=sample_host) asc "age" (text_age 2 "abc") (user 1 5) = 1
  ∧ compareRows (host:=sample_host) asc "age" (nan_age 2) (nan_age 2) = 1
  ∧ ¬ consistent_on (compareRows (host:=sample_host) asc "age")
        [ageless 1; null_age 2].
Proof.
  do 5 (split; [vm_compute; reflexivity|]).
  intros Hc.
  destruct (Hc (ageless 1) (null_age 2) (ageless 1)) as (_ & _ & _ & Hlt & _).
  - apply list_elem_of_here.
  - apply list_elem_of_further, list_elem_of_here.
  - apply list_elem_of_here.
  - assert (compareRows (host:=sample_host) asc "age" (ageless 1) (ageless 1) = 0)
      as H0 by (vm_compute; reflexivity).
    rewrite H0 in Hlt. apply (Z.lt_irrefl 0), Hlt; vm_compute; reflexivity.
Qed.

Lemma engines_differ_when_not_consistent :
  let cols := [age_column; name_column] in
  let st := sortState (sorted_by_age asc ∅) in
  sortedData (host:=sample_host) [ageless 1; null_age 2; ageless 3] cols st
  = [ageless 1; null_age 2; ageless 3]
  ∧ sortedData (host:=short_array_host) [ageless 1; null_age 2; ageless 3] cols st
    = [ageless 3; null_age 2; ageless 1]
  ∧ sortedData (host:=sample_host) [ageless 1; null_age 2] cols st
    = [ageless 1; null_age 2]
  ∧ sortedData (host:=short_array_host) [ageless 1; null_age 2] cols st
    = [null_age 2; ageless 1]
  ∧ sortedData (host:=sample_host) [user 1 5; text_age 2 "abc"] cols st
    = [text_age 2 "abc"; user 1 5]
  ∧ sortedData (host:=short_array_host) [user 1 5; text_age 2 "abc"] cols st
    = [user 1 5; text_age 2 "abc"]
  ∧ sortedData (host:=sample_host) [user 1 2; nan_age 2; user 3 1] cols st
    = [user 3 1; nan_age 2; user 1 2]
  ∧ sortedData (host:=short_array_host) [user 1 2; nan_age 2; user 3 1] cols st
    = [user 1 2; nan_age 2; user 3 1].
Proof. repeat split; vm_compute; reflexivity. Qed.

Lemma handleSort_three_phase_cycle_witness :
  sortState (handleSort age_column (handleSort age_column (handleSort age_column initialState)))
  = cleared
  ∧ handleSort name_column initialState = initialState.
Proof.
  split.
  - destruct (proj1 (handleSort_three_phase_cycle age_column initialState))
      as (_ & _ & H).
    + reflexivity.
    + right. reflexivity.
    + exact H.
  - apply (proj2 (handleSort_three_phase_cycle name_column initialState)).
    reflexivity.
Defined.

Lemma sortedData_unknown_column_witness :
  sortedData (host:=sample_host) [user 1 30; user 2 20] [name_column]
    {| column := Some "age"%string; order := Some asc |}
  = [user 1 30; user 2 20].
Proof.
  apply (sortedData_unknown_column (host:=sample_host)
           [user 1 30; user 2 20] [name_column]
           {| column := Some "age"%string; order := Some asc |} "age").
  - reflexivity.
  - reflexivity.
Defined.

(** C3, as stated: the callback list would follow the sorted view. With
    the rows sorted by age, selecting the second row of [data] while the
    first is selected reports the rows in the order of [data]. *)
Lemma handleRowSelect_not_display_order :
  let p := mk_props [user 1 30; user 2 20] true in
  let s := sorted_by_age asc {[ VNum 1 ]} in
  let keys' := selectedRowKeys (handleRowSelect p s (VNum 2) true).1 in
  displayed_selection (host:=sample_host) p s keys' = [user 2 20; user 1 30]
  ∧ (handleRowSelect p s (VNum 2) true).2 = [[user 1 30; user 2 20]]
  ∧ (handleRowSelect p s (VNum 2) true).2
    ≠ [displayed_selection (host:=sample_host) p s keys'].
Proof.
  split; [|split].
  - vm_compute. reflexivity.
  - vm_compute. reflexivity.
  - vm_compute. intros H. discriminate H.
Qed.

Lemma handleRowSelect_callback_rows_witness :
  ∃ sel : list (nat * row),
    (handleRowSelect (mk_props [user 1 30; user 2 20] true)
       (sorted_by_age asc {[ VNum 1 ]}) (VNum 2) true).2 = [sel.*2]
    ∧ sublist sel (imap pair [user 1 30; user 2 20]).
Proof.
  destruct (handleRowSelect_callback_rows
              (mk_props [user 1 30; user 2 20] true)
              (sorted_by_age asc {[ VNum 1 ]}) (VNum 2) true
              (λ selectedRows, selectedRows))
    as (sel & Hcall & Hsub & _).
  - reflexivity.
  - exists sel. split; [exact Hcall|exact Hsub].
Defined.

(** C4, as stated: the key was selected before the two toggles, and is
    not afterwards. *)
Lemma select_then_deselect_loses_prior_key :
  let p := mk_props [user 1 30; user 2 20] false in
  let s := sorted_by_age asc {[ VNum 1 ]} in
  let s2 := (handleRowSelect p (handleRowSelect p s (VNum 1) true).1 (VNum 1) false).1 in
  (VNum 1 ∈ selectedRowKeys s)
  ∧ (VNum 1 ∉ selectedRowKeys s2)
  ∧ selectedRowKeys s2 ≠ selectedRowKeys s.
Proof.
  assert (Hin : VNum 1 ∈ selectedRowKeys (sorted_by_age asc {[ VNum 1 ]})).
  { simpl. set_solver. }
  assert (Hout : VNum 1 ∉ (selectedRowKeys
            (handleRowSelect (mk_props [user 1 30; user 2 20] false)
               (handleRowSelect (mk_props [user 1 30; user 2 20] false)
                  (sorted_by_age asc {[ VNum 1 ]}) (VNum 1) true).1 (VNum 1) false).1)).
  { simpl. set_solver. }
  split; [exact Hin|]. split; [exact Hout|].
  intros Heq. apply Hout. rewrite Heq. exact Hin.
Qed.

Lemma select_then_deselect_witness :
  (handleRowSelect (mk_props [user 1 30] false)
     (handleRowSelect (mk_props [user 1 30] false) initialState (VNum 1) true).1
     (VNum 1) false).1
  = initialState.
Proof.
  apply (proj2 (select_then_deselect (mk_props [user 1 30] false) initialState (VNum 1))).
  simpl. set_solver.
Defined.

(** C5, as stated: two rows with the same [id] give one key, so the size
    test of [isAllSelected] fails after selecting all. *)
Lemma select_all_with_duplicate_keys :
  let p := mk_props [user 1 30; user 1 20] false in
  data p ≠ []
  ∧ isAllSelected p (handleSelectAll p initialState true).1 = false
  ∧ isIndeterminate p (handleSelectAll p initialState true).1 = true.
Proof.
  split; [discriminate|]. split; vm_compute; reflexivity.
Qed.

Lemma select_all_then_none_witness :
  isAllSelected (mk_props [user 1 30; user 2 20] false)
    (handleSelectAll (mk_props [user 1 30; user 2 20] false) initialState true).1
  = true.
Proof.
  destruct (select_all_then_none (mk_props [user 1 30; user 2 20] false) initialState)
    as (_ & H & _).
  apply H.
  - discriminate.
  - vm_compute. repeat constructor; set_solver.
Defined.

(** C6. Two rows without [id], sorted by age: the checkbox of the first
    displayed row carries key 0, the position of the other row in [data],
    and ticking it reports that other row. *)
Lemma fallback_key_is_display_index :
  let p := mk_props [anonymous 30; anonymous 20] true in
  let s := sorted_by_age asc ∅ in
  sortedData (host:=sample_host) (data p) (columns p) (sortState s)
  = [anonymous 20; anonymous 30]
  ∧ rowKeys p = [VNum 0; VNum 1]
  ∧ actions (DataTable (host:=sample_host) p s)
    = [CheckAll; ClickHeader 0; ClickHeader 1; CheckRow (VNum 0); CheckRow (VNum 1)]
  ∧ (dispatch p s (CheckRow (VNum 0)) true).2 = [[anonymous 30]].
Proof.
  repeat split; vm_compute; reflexivity.
Qed.

Lemma renderState_decides_output_witness :
  (renderState (mk_props [] true) = Empty
   ∧ DataTable (host:=sample_host) (mk_props [] true) initialState
     = emptyPanel (mk_props [] true))
  ∧ (texts (DataTable (host:=sample_host) (mk_props [] true) initialState)
     = ["No Data"%string; "No data available"%string]
     ∧ count_tag "th" (DataTable (host:=sample_host) (mk_props [] true) initialState)
       = 0%nat)
  ∧ (∃ rows,
       body_rows (DataTable (host:=sample_host) (mk_props [user 1 30; user 2 20] true)
                    (sorted_by_age asc ∅))
       = Some rows
       ∧ row_key <$> rows = [Some (VNum 2); Some (VNum 1)]).
Proof.
  split; [|split].
  - destruct (renderState_decides_output (host:=sample_host) (mk_props [] true)
                initialState)
      as (_ & He & _ & Hout & _).
    assert (Hst : renderState (mk_props [] true) = Empty).
    { apply He. split; reflexivity. }
    split; [exact Hst|]. rewrite Hout, Hst. reflexivity.
  - destruct (renderState_decides_output (host:=sample_host) (mk_props [] true)
                initialState)
      as (_ & _ & _ & _ & _ & _ & _ & _ & _ & H).
    change (renderState (mk_props [] true)) with Empty in H.
    destruct H as (_ & _ & Htexts & Hth & _). split; [exact Htexts|exact Hth].
  - destruct (renderState_decides_output (host:=sample_host)
                (mk_props [user 1 30; user 2 20] true) (sorted_by_age asc ∅))
      as (_ & _ & _ & _ & _ & _ & _ & _ & _ & H).
    change (renderState (mk_props [user 1 30; user 2 20] true)) with Populated in H.
    destruct H as ((rows & Hrows & Hkeys) & _).
    exists rows. split; [exact Hrows|]. rewrite Hkeys. vm_compute. reflexivity.
Defined.

(** Sorting the caller's array itself would be visible in the heap. *)
Lemma array_sort_in_place_writes :
  let h : heap := {[ 1%positive := RowArray [user 1 30; user 2 20] ]} in
  read_rows (array_sort_in_place (host:=sample_host)
               (compareRows (host:=sample_host) asc "age") 1%positive h).2
    1%positive
  = [user 2 20; user 1 30].
Proof. vm_compute. reflexivity. Qed.

Lemma caller_arrays_never_mutated_witness :
  let h : heap :=
    {[ 1%positive := RowArray [user 1 30; user 2 20];
       2%positive := ColumnArray [age_column; name_column] ]} in
  let events :=
    [Render; Interact (ClickHeader 0) false; Render;
     Interact (CheckRow (VNum 2)) true; Render] in
  read_rows
    (run_mem (host:=sample_host) (mk_props [user 1 30; user 2 20] true)
       1%positive 2%positive events (initialState, h)).2 1%positive
  = [user 1 30; user 2 20].
Proof.
  intros h events.
  apply (caller_arrays_never_mutated (host:=sample_host)
           (mk_props [user 1 30; user 2 20] true) 1%positive 2%positive
           events initialState h).
  reflexivity.
Defined.

(** * Further properties of the table *)

Section TableProperties.

Context `{host : Host} {E : Type}.

Implicit Types (p : DataTableProps E) (s : State) (c col : Column).

(** ** The sorted view *)

Lemma sortedData_perm data cols st : sortedData data cols st ≡ₚ data.
Proof.
  unfold sortedData. destruct (negb _ || negb _); [done|].
  destruct (column st) as [id|]; [|done]. destruct (order st); [|done].
  destruct (find_column cols id); [|done]. apply engine_sort_perm.
Qed.

(** The sorted view holds the rows of [data], each as often as [data]
    does, whatever the sort state and the columns. *)
Theorem sortedData_permutation data cols st :
  sortedData data cols st ≡ₚ data
  ∧ length (sortedData data cols st) = length data.
Proof.
  pose proof (sortedData_perm data cols st) as Hperm.
  split; [done|]. by rewrite Hperm.
Qed.

(** *** Consistent comparators *)

Lemma consistent_antisym {A} (cmp : A → A → Z) l a b :
  consistent_on cmp l → a ∈ l → b ∈ l → 0 ≤ cmp b a → cmp a b ≤ 0.
Proof.
  intros Hc Ha Hb Hba.
  pose proof (Hc a b a Ha Hb Ha). pose proof (Hc b a b Hb Ha Hb). lia.
Qed.

Lemma consistent_tie {A} (cmp : A → A → Z) l a b :
  consistent_on cmp l → a ∈ l → b ∈ l → cmp a b ≤ 0 → cmp b a ≤ 0 → cmp a b = 0.
Proof.
  intros Hc Ha Hb Hab Hba.
  pose proof (Hc a b a Ha Hb Ha). pose proof (Hc b a b Hb Ha Hb). lia.
Qed.

Lemma consistent_le_trans {A} (cmp : A → A → Z) l a b d :
  consistent_on cmp l → a ∈ l → b ∈ l → d ∈ l →
  cmp a b ≤ 0 → cmp b d ≤ 0 → cmp a d ≤ 0.
Proof.
  intros Hc Ha Hb Hd Hab Hbd.
  destruct (Hc a b d Ha Hb Hd) as (_ & Hsym_ab & Heq_abd & Hlt_abd & _).
  destruct (Hc b d a Hb Hd Ha) as (_ & Hsym_bd & Heq_bda & Hlt_bda & _).
  destruct (Hc d a b Hd Ha Hb) as (_ & Hsym_da & _ & Hlt_dab & _).
  destruct (Hc b a d Hb Ha Hd) as (_ & Hsym_ba & Heq_bad & _).
  destruct (Hc a d a Ha Hd Ha) as (_ & Hsym_ad & _).
  pose proof (consistent_antisym cmp l d a Hc Hd Ha) as Hanti.
  destruct (Z.lt_trichotomy (cmp a d) 0) as [?|[Hz|Hpos]]; [lia| lia |].
  exfalso.
  assert (cmp d a < 0) as Hda.
  { assert (cmp d a ≤ 0) by (apply Hanti; lia).
    destruct (Z.eq_dec (cmp d a) 0) as [Hz|?]; [|lia].
    apply Hsym_da in Hz. lia. }
  destruct (Z.eq_dec (cmp a b) 0) as [Hab0|?];
    destruct (Z.eq_dec (cmp b d) 0) as [Hbd0|?].
  - specialize (Heq_abd Hab0 Hbd0). lia.
  - assert (cmp b a < 0) by (apply Hlt_bda; lia).
    apply Hsym_ab in Hab0. lia.
  - assert (cmp d b < 0) by (apply Hlt_dab; lia).
    apply Hsym_bd in Hbd0. lia.
  - assert (cmp a d < 0) by (apply Hlt_abd; lia). lia.
Qed.

Lemma consistent_answered {A} (cmp : A → A → Z) l u v :
  consistent_on cmp l → u ∈ l → v ∈ l → answered cmp u v → cmp u v ≤ 0.
Proof. intros Hc Hu Hv [?|?]; [done|by eapply consistent_antisym]. Qed.

Lemma consistent_on_perm {A} (cmp : A → A → Z) l k :
  l ≡ₚ k → consistent_on cmp l → consistent_on cmp k.
Proof.
  intros Hp Hc a b d Ha Hb Hd. rewrite <- Hp in Ha, Hb, Hd. by apply Hc.
Qed.

Lemma justified_consistent {A} (cmp : A → A → Z) l u v :
  consistent_on cmp l → justified cmp l u v → u ∈ l ∧ v ∈ l ∧ cmp u v ≤ 0.
Proof.
  intros Hc Huv.
  induction Huv as [u v (Hu & Hv & Ha)|u w v (Hu & Hw & Ha) _ (_ & Hv & Hwv)].
  - split_and!; [done..|]. by eapply consistent_answered.
  - split_and!; [done..|].
    eapply (consistent_le_trans cmp l u w v); eauto using consistent_answered.
Qed.

(** With a consistent comparator, whatever the engine returns is in the
    comparator's order. *)
Lemma engine_sort_consistent cmp l :
  consistent_on cmp l →
  StronglySorted (λ a b, cmp a b ≤ 0) (engine_sort cmp l).
Proof.
  intros Hc. pose proof (engine_sort_justified cmp l) as Hs.
  apply Sorted_StronglySorted in Hs; [|intros x y z Hxy Hyz; by etrans].
  induction Hs as [|x k Hs IH Hx]; constructor; [done|].
  eapply Forall_impl; [exact Hx|]. intros y Hy.
  by apply (justified_consistent cmp l x y Hc).
Qed.

Lemma filter_filter_sub {A} (P Q : A → Prop) `{!∀ x, Decision (P x)}
    `{!∀ x, Decision (Q x)} (l : list A) :
  Forall (λ x, P x → Q x) l → filter P (filter Q l) = filter P l.
Proof.
  induction 1 as [|x l Hx _ IH]; [done|].
  rewrite (filter_cons Q). destruct (decide (Q x)) as [HQ|HQ].
  - rewrite !(filter_cons P), IH. done.
  - rewrite IH, (filter_cons P), decide_False; [done|]. intros HP. auto.
Qed.

(** Two arrangements of the same elements, both in the order of a
    consistent comparator and with the same order inside every class of
    ties, are one and the same. *)
Lemma stable_sorted_unique {A} (cmp : A → A → Z) (l l1 l2 : list A) :
  consistent_on cmp l → Forall (λ x, x ∈ l) l1 → l1 ≡ₚ l2 →
  StronglySorted (λ a b, cmp a b ≤ 0) l1 →
  StronglySorted (λ a b, cmp a b ≤ 0) l2 →
  (∀ a, a ∈ l →
     filter (λ x, cmp a x = 0) l1 = filter (λ x, cmp a x = 0) l2) →
  l1 = l2.
Proof.
  intros Hc Hin. revert l2.
  induction l1 as [|x l1 IH]; intros l2 Hp Hs1 Hs2 Hst.
  { by apply Permutation_nil in Hp. }
  destruct l2 as [|y l2].
  { by apply Permutation_sym, Permutation_nil in Hp. }
  apply Forall_cons in Hin as [Hx Hin].
  apply StronglySorted_inv in Hs1 as [Hs1 Hx1].
  apply StronglySorted_inv in Hs2 as [Hs2 Hy2].
  rewrite Forall_forall in Hx1, Hy2.
  assert (Hxx : cmp x x = 0) by (by destruct (Hc x x x Hx Hx Hx) as (? & _)).
  assert (Hy : y ∈ x :: l1) by (rewrite Hp; apply list_elem_of_here).
  assert (Hx' : x ∈ y :: l2) by (rewrite <- Hp; apply list_elem_of_here).
  assert (Hxy : cmp x y = 0).
  { apply elem_of_cons in Hy as [->|Hy]; [done|].
    apply elem_of_cons in Hx' as [->|Hx']; [done|].
    apply (consistent_tie cmp l); auto.
    rewrite Forall_forall in Hin. auto. }
  assert (x = y) as <-.
  { specialize (Hst x Hx). rewrite !filter_cons in Hst.
    rewrite !decide_True in Hst by done. by injection Hst. }
  f_equal. apply IH; try done.
  - by apply Permutation_cons_inv in Hp.
  - intros a Ha. specialize (Hst a Ha). rewrite !filter_cons in Hst.
    destruct (decide (cmp a x = 0)); [by injection Hst|done].
Qed.

(** *** The insertion sort is stable *)

Lemma sort_insert_filter_other {A} (cmp : A → A → Z) (P : A → Prop)
    `{!∀ x, Decision (P x)} x l :
  ¬ P x → filter P (sort_insert cmp x l) = filter P l.
Proof.
  intros Hx. induction l as [|y l IH]; simpl.
  - by rewrite filter_cons, decide_False.
  - destruct (0 <? cmp x y).
    + by rewrite !(filter_cons _ y), IH.
    + by rewrite (filter_cons _ x), decide_False.
Qed.

Lemma sort_insert_filter_tie {A} (cmp : A → A → Z) (P : A → Prop)
    `{!∀ x, Decision (P x)} x l :
  (∀ y, y ∈ l → P y → cmp x y ≤ 0) → P x →
  filter P (sort_insert cmp x l) = x :: filter P l.
Proof.
  intros Htie Hx. induction l as [|y l IH]; simpl.
  - by rewrite filter_cons, decide_True.
  - destruct (0 <? cmp x y) eqn:Hlt.
    + apply Z.ltb_lt in Hlt.
      assert (¬ P y).
      { intros Hy. specialize (Htie y (list_elem_of_here _ _) Hy). lia. }
      rewrite !(filter_cons _ y), !decide_False, IH; [done| |done..].
      intros z Hz. apply Htie. by apply list_elem_of_further.
    + by rewrite (filter_cons _ x), decide_True.
Qed.

Lemma array_sort_filter_ties {A} (cmp : A → A → Z) (P : A → Prop)
    `{!∀ x, Decision (P x)} l :
  (∀ x y, x ∈ l → y ∈ l → P x → P y → cmp x y ≤ 0) →
  filter P (array_sort cmp l) = filter P l.
Proof.
  induction l as [|x l IH]; intros Htie; [done|].
  simpl. rewrite filter_cons. destruct (decide (P x)) as [Hx|Hx].
  - rewrite sort_insert_filter_tie; [|intros y Hy HP|done].
    + rewrite IH; [done|]. intros a b Ha Hb.
      apply Htie; by apply list_elem_of_further.
    + rewrite array_sort_perm in Hy.
      apply Htie; [apply list_elem_of_here|by apply list_elem_of_further|done..].
  - rewrite sort_insert_filter_other by done. apply IH.
    intros a b Ha Hb. apply Htie; by apply list_elem_of_further.
Qed.

Lemma array_sort_stable {A} (cmp : A → A → Z) l a :
  consistent_on cmp l → a ∈ l →
  filter (λ x, cmp a x = 0) (array_sort cmp l) = filter (λ x, cmp a x = 0) l.
Proof.
  intros Hc Ha. apply array_sort_filter_ties. intros x y Hx Hy Hax Hay.
  pose proof (Hc a x y Ha Hx Hy). pose proof (Hc x a y Hx Ha Hy). lia.
Qed.

(** *** Columns of numbers *)

Lemma compareRows_numeric_sign ord field a b :
  numeric_on field a → numeric_on field b →
  let n := match ord with asc => field_num field a | desc => field_num field b end in
  let m := match ord with asc => field_num field b | desc => field_num field a end in
  (compareRows ord field a b < 0 ↔ n < m)
  ∧ (compareRows ord field a b = 0 ↔ n = m)
  ∧ (0 < compareRows ord field a b ↔ m < n).
Proof.
  intros [n Hn] [m Hm]. unfold compareRows, field_num, strict_eq.
  rewrite Hn, Hm. simpl. case_bool_decide as Heq.
  - simplify_eq. destruct ord; lia.
  - assert (n ≠ m) by congruence.
    destruct (Z.ltb_spec n m); destruct ord; lia.
Qed.

Lemma compareRows_numeric ord field a b :
  numeric_on field a → numeric_on field b →
  (compareRows ord field a b ≤ 0
   ↔ match ord with
     | asc => field_num field a ≤ field_num field b
     | desc => field_num field b ≤ field_num field a
     end).
Proof.
  intros Ha Hb. pose proof (compareRows_numeric_sign ord field a b Ha Hb) as H.
  destruct ord; simpl in H; lia.
Qed.

(** On rows that all hold a number in the field, the comparator is
    consistent. *)
Lemma compareRows_consistent_numeric ord field data :
  Forall (numeric_on field) data →
  consistent_on (compareRows ord field) data.
Proof.
  rewrite Forall_forall. intros Hnum a b d Ha Hb Hd.
  apply Hnum in Ha, Hb, Hd.
  pose proof (compareRows_numeric_sign ord field a a Ha Ha) as Haa.
  pose proof (compareRows_numeric_sign ord field a b Ha Hb) as Hab.
  pose proof (compareRows_numeric_sign ord field b a Hb Ha) as Hba.
  pose proof (compareRows_numeric_sign ord field b d Hb Hd) as Hbd.
  pose proof (compareRows_numeric_sign ord field a d Ha Hd) as Had.
  destruct ord; simpl in *; lia.
Qed.

Lemma StronglySorted_change {A} (R R' : A → A → Prop) (Q : A → Prop) l :
  (∀ a b, Q a → Q b → R a b → R' a b) →
  Forall Q l → StronglySorted R l → StronglySorted R' l.
Proof.
  intros Himp HQ Hs. induction Hs as [|x l Hs IH Hx]; [constructor|].
  apply Forall_cons in HQ as [HQx HQl]. constructor; [by apply IH|].
  rewrite Forall_forall in Hx, HQl. apply Forall_forall. intros y Hy.
  apply Himp; auto.
Qed.

(** A row that does not tie with itself holds NaN, and then the comparator
    is not consistent on any rows that include it. *)
Lemma consistent_on_same_value ord field data a r :
  consistent_on (compareRows ord field) data → a ∈ data →
  get_field r field = get_field a field →
  compareRows ord field a r = 0.
Proof.
  intros Hc Ha Hr.
  destruct (Hc a a a Ha Ha Ha) as (Haa & _).
  unfold compareRows in *. rewrite Hr. exact Haa.
Qed.

(** With a stable engine and a comparator that is consistent on the
    rows, the rows that hold one and the same value in the sorted column
    keep the order they have in [data]. *)
Theorem sortedData_stable data cols st id col v :
  column st = Some id → find_column cols id = Some col →
  engine_stable →
  (∀ ord, order st = Some ord →
     consistent_on (compareRows ord (dataIndex col)) data) →
  filter (λ r, get_field r (dataIndex col) = v) (sortedData data cols st)
  = filter (λ r, get_field r (dataIndex col) = v) data.
Proof.
  intros Hc Hf Hstable Hcons. unfold sortedData. rewrite Hc, Hf.
  destruct (negb _ || negb _); [done|].
  destruct (order st) as [ord|]; [|done].
  specialize (Hcons ord eq_refl).
  set (field := dataIndex col) in *. set (cmp := compareRows ord field) in *.
  pose proof (engine_sort_perm cmp data) as Hperm.
  destruct (decide (Exists (λ r, get_field r field = v) data)) as [Hex|Hno].
  - apply Exists_exists in Hex as (a & Ha & Hv).
    assert (Hsub : ∀ l, Forall (λ r, get_field r field = v → cmp a r = 0) l).
    { intros l. apply Forall_forall. intros r _ Hr.
      apply (consistent_on_same_value ord field data a r Hcons Ha). congruence. }
    rewrite <- (filter_filter_sub _ (λ r, cmp a r = 0) (engine_sort cmp data))
      by apply Hsub.
    rewrite <- (filter_filter_sub _ (λ r, cmp a r = 0) data) by apply Hsub.
    by rewrite (Hstable cmp data Hcons a Ha).
  - rewrite <- Forall_Exists_neg in Hno.
    rewrite !filter_none; [done|done|by rewrite Hperm].
Qed.

(** When every row holds a number (an integer, so not NaN) in the
    sorted column, the numbers of the sorted view never decrease in
    ascending order and never increase in descending order, whichever
    arrangement the engine's sort picks. *)
Theorem sortedData_numeric_sorted data cols st id ord col :
  column st = Some id → id ≠ EmptyString → order st = Some ord →
  find_column cols id = Some col →
  Forall (numeric_on (dataIndex col)) data →
  StronglySorted (match ord with asc => Z.le | desc => Z.ge end)
    (field_num (dataIndex col) <$> sortedData data cols st).
Proof.
  intros Hc Hid Ho Hf Hnum.
  rewrite (sortedData_active data cols st id ord col) by done.
  set (field := dataIndex col) in *.
  apply (StronglySorted_fmap _
           (λ a b, match ord with
                   | asc => (field_num field a <= field_num field b)%Z
                   | desc => (field_num field a >= field_num field b)%Z
                   end)).
  { intros a b. by destruct ord. }
  apply (StronglySorted_change (λ a b, compareRows ord field a b ≤ 0) _
           (numeric_on field)).
  - intros a b Ha Hb Hle.
    apply (compareRows_numeric ord _ a b Ha Hb) in Hle. destruct ord; lia.
  - by rewrite engine_sort_perm.
  - by apply engine_sort_consistent, compareRows_consistent_numeric.
Qed.

(** With a stable engine: sorting rows that are already in the order
    of a comparator that is consistent on them returns them unchanged; in
    particular, on a column of numbers, sorting the sorted view again
    changes nothing. *)
Theorem sortedData_idempotent data cols st id ord col :
  column st = Some id → id ≠ EmptyString → order st = Some ord →
  find_column cols id = Some col →
  engine_stable →
  (consistent_on (compareRows ord (dataIndex col)) data →
   StronglySorted (λ a b, compareRows ord (dataIndex col) a b ≤ 0) data →
   sortedData data cols st = data)
  ∧ (Forall (numeric_on (dataIndex col)) data →
     sortedData (sortedData data cols st) cols st = sortedData data cols st).
Proof.
  intros Hc Hid Ho Hf Hstable.
  assert (Hview := λ rows, sortedData_active rows cols st id ord col Hc Hid Ho Hf).
  set (cmp := compareRows ord (dataIndex col)) in *.
  assert (Hfix : ∀ rows, consistent_on cmp rows →
            StronglySorted (λ a b, cmp a b ≤ 0) rows →
            engine_sort cmp rows = rows).
  { intros rows Hcons Hs.
    apply (stable_sorted_unique cmp rows); try done.
    - apply Forall_forall. intros x Hx. by rewrite engine_sort_perm in Hx.
    - apply engine_sort_perm.
    - by apply engine_sort_consistent.
    - by apply Hstable. }
  split.
  - intros Hcons Hs. rewrite Hview. by apply Hfix.
  - intros Hnum. rewrite !Hview.
    assert (Hcons : consistent_on cmp data)
      by by apply compareRows_consistent_numeric.
    apply Hfix; [|by apply engine_sort_consistent].
    apply (consistent_on_perm cmp data); [|done].
    symmetry. apply engine_sort_perm.
Qed.

(** ** The sort state *)

Lemma nextSortState_wf cols col st :
  col ∈ cols → truthy_flag (sortable col) = true →
  sortState_wf cols (nextSortState col st).
Proof.
  intros Hin Hsort. unfold nextSortState.
  destruct (negb _); [right; eauto|].
  destruct (order st) as [[]|]; [right; eauto|by left|right; eauto].
Qed.

Lemma dispatch_sortState_wf p s a checked :
  sortState_wf (columns p) (sortState s) →
  sortState_wf (columns p) (sortState (dispatch p s a checked).1).
Proof.
  intros Hwf. destruct a as [i| |k]; simpl.
  - destruct (columns p !! i) as [col|] eqn:Hi; [|done].
    simpl. unfold handleSort.
    destruct (truthy_flag (sortable col)) eqn:Hsort; [|done].
    simpl. apply nextSortState_wf; [|done].
    by eapply list_elem_of_lookup_2.
  - unfold handleSelectAll. by destruct checked.
  - by rewrite handleRowSelect_sortState.
Qed.

(** Whatever the user clicks, starting from a well-formed sort state (the
    initial one is), the sort state stays well-formed: it is cleared, or it
    names a sortable column of the column list together with an order. A
    column is never active without an order, nor an order without a column. *)
Theorem interact_sortState_wf p s events :
  sortState_wf (columns p) (sortState s) →
  sortState_wf (columns p) (sortState (interact p s events).1).
Proof.
  revert s. induction events as [|[a checked] events IH]; intros s Hwf; [done|].
  simpl. pose proof (dispatch_sortState_wf p s a checked Hwf) as H1.
  destruct (dispatch p s a checked) as [s1 out1].
  specialize (IH s1 H1). by destruct (interact p s1 events) as [s2 out2].
Qed.

(** ** Selection *)

(** Setting one row's selection twice to the same value is the same as
    setting it once, and settings of two different keys can be swapped. *)
Theorem handleRowSelect_idempotent_commute p s k1 k2 b1 b2 :
  (handleRowSelect p (handleRowSelect p s k1 b1).1 k1 b1).1
  = (handleRowSelect p s k1 b1).1
  ∧ (k1 ≠ k2 →
     (handleRowSelect p (handleRowSelect p s k1 b1).1 k2 b2).1
     = (handleRowSelect p (handleRowSelect p s k2 b2).1 k1 b1).1).
Proof.
  assert (Hst : ∀ s1 s2 : State,
            sortState s1 = sortState s2 →
            selectedRowKeys s1 = selectedRowKeys s2 → s1 = s2).
  { intros [] []; simpl; congruence. }
  split.
  - apply Hst; [by rewrite !handleRowSelect_sortState|].
    rewrite !handleRowSelect_keys. destruct b1; set_solver.
  - intros Hne. apply Hst; [by rewrite !handleRowSelect_sortState|].
    rewrite !handleRowSelect_keys. destruct b1, b2; set_solver.
Qed.

Lemma dispatch_callbacks p s a checked :
  length (dispatch p s a checked).2
  = if is_selection_event (a, checked) && bool_decide (is_Some (onRowSelect p))
    then 1%nat else 0%nat.
Proof.
  destruct a as [i| |k]; simpl.
  - by destruct (columns p !! i).
  - unfold handleSelectAll. destruct checked, (onRowSelect p); done.
  - unfold handleRowSelect. by destruct (onRowSelect p).
Qed.

(** Over any sequence of interactions the selection callback is invoked
    once per checkbox interaction when the caller gave one, never otherwise,
    and never by a header click. *)
Theorem interact_callback_count p s events :
  length (interact p s events).2
  = if bool_decide (is_Some (onRowSelect p))
    then length (filter (λ e, is_selection_event e = true) events)
    else 0%nat.
Proof.
  revert s. induction events as [|[a checked] events IH]; intros s.
  - simpl. by case_bool_decide.
  - simpl. pose proof (dispatch_callbacks p s a checked) as H1.
    destruct (dispatch p s a checked) as [s1 out1].
    specialize (IH s1). destruct (interact p s1 events) as [s2 out2].
    simpl in *. rewrite length_app, H1, IH, filter_cons.
    destruct (is_selection_event (a, checked)); simpl;
      case_bool_decide; simpl; try done.
Qed.

(** ** The header checkbox *)

(** The header checkbox is never both checked and indeterminate. *)
Theorem isAllSelected_excludes_isIndeterminate p s :
  isAllSelected p s && isIndeterminate p s = false.
Proof.
  unfold isAllSelected, isIndeterminate.
  repeat case_bool_decide; simpl; try done. lia.
Qed.

Lemma rowKeys_length p : length (rowKeys p) = length (data p).
Proof. unfold rowKeys. apply length_imap. Qed.

(** When the row keys are pairwise distinct and only keys of current rows
    are selected, the header checkbox is checked exactly when there is at
    least one row and every row is selected. *)
Theorem isAllSelected_iff_every_row p s :
  NoDup (rowKeys p) →
  selectedRowKeys s ⊆ list_to_set (rowKeys p) →
  isAllSelected p s = true
  ↔ data p ≠ [] ∧ ∀ k, k ∈ rowKeys p → k ∈ selectedRowKeys s.
Proof.
  intros Hnd Hsub. unfold isAllSelected.
  rewrite andb_true_iff, !bool_decide_eq_true.
  assert (Hsize : size (list_to_set (rowKeys p) : gset value) = length (data p)).
  { rewrite size_list_to_set by done. apply rowKeys_length. }
  split.
  - intros [Hpos Heq]. split; [by destruct (data p); simpl in *; [lia|]|].
    intros k Hk.
    assert (selectedRowKeys s = list_to_set (rowKeys p)) as ->.
    { apply set_subseteq_size_eq; [done|]. rewrite Hsize. lia. }
    by apply elem_of_list_to_set.
  - intros [Hne Hall]. split; [destruct (data p); [done|simpl; lia]|].
    rewrite <- Hsize. f_equal. apply set_eq. intros k. split; [by apply Hsub|].
    rewrite elem_of_list_to_set. apply Hall.
Qed.

(** With pairwise distinct keys and at least two rows, selecting all and
    then deselecting one row leaves the header checkbox unchecked and
    indeterminate. *)
Theorem deselect_one_after_select_all p s k :
  NoDup (rowKeys p) → k ∈ rowKeys p → (2 ≤ length (data p))%nat →
  let s2 := (handleRowSelect p (handleSelectAll p s true).1 k false).1 in
  isAllSelected p s2 = false ∧ isIndeterminate p s2 = true.
Proof.
  intros Hnd Hk Hlen s2.
  assert (Hkeys : selectedRowKeys s2 = list_to_set (rowKeys p) ∖ {[k]}).
  { unfold s2. by rewrite handleRowSelect_keys. }
  assert (Hsize : size (selectedRowKeys s2) = (length (data p) - 1)%nat).
  { rewrite Hkeys, size_difference.
    - rewrite size_list_to_set, size_singleton, rowKeys_length; done.
    - apply singleton_subseteq_l. by apply elem_of_list_to_set. }
  unfold isAllSelected, isIndeterminate. rewrite Hsize. split.
  - apply andb_false_iff. right. apply bool_decide_eq_false_2. lia.
  - apply andb_true_iff. split; apply bool_decide_eq_true_2; lia.
Qed.

(** ** Row keys *)

Lemma getRowKey_index_free p r i j :
  keys_index_free p → r ∈ data p → getRowKey p r i = getRowKey p r j.
Proof.
  unfold keys_index_free, getRowKey. intros Hfree Hr.
  destruct (rowKey_or_default p) as [field|f]; [|done].
  rewrite Forall_forall in Hfree. specialize (Hfree r Hr).
  unfold nullish_on in Hfree. apply not_true_is_false in Hfree.
  unfold nullish_coalesce. by rewrite Hfree.
Qed.

Lemma array_filter_elem {A} (f : A → nat → bool) (l : list A) x :
  x ∈ array_filter f l ↔ ∃ i, l !! i = Some x ∧ f x i = true.
Proof.
  unfold array_filter. rewrite filter_from_indexed.
  rewrite list_elem_of_fmap. split.
  - intros ([i y] & -> & Hin). apply list_elem_of_filter in Hin as [Hf Hin].
    apply elem_of_lookup_imap in Hin as (j & z & Heq & Hj). simplify_eq.
    simpl in *. eauto.
  - intros (i & Hi & Hf). exists (i, x). split; [done|].
    apply list_elem_of_filter. split; [done|].
    apply elem_of_lookup_imap. exists i, x. done.
Qed.

(** When the row key does not depend on the index (a key function, or
    every row has a value in the key field), sorting does not change the
    keys: the keys of the displayed rows are those of [data], and ticking a
    displayed row reports that very row to the caller. *)
Theorem keys_survive_sorting p s i r callback :
  keys_index_free p →
  imap (λ index record, getRowKey p record index)
    (sortedData (data p) (columns p) (sortState s)) ≡ₚ rowKeys p
  ∧ (sortedData (data p) (columns p) (sortState s) !! i = Some r →
     onRowSelect p = Some callback →
     ∃ rows, (handleRowSelect p s (getRowKey p r i) true).2 = [callback rows]
             ∧ r ∈ rows).
Proof.
  intros Hfree.
  pose proof (sortedData_perm (data p) (columns p) (sortState s)) as Hperm.
  split.
  - assert (Hmap : ∀ l, (∀ x, x ∈ l → x ∈ data p) →
              imap (λ index record, getRowKey p record index) l
              = (λ record, getRowKey p record 0) <$> l).
    { intros l Hl. apply list_eq. intros j.
      rewrite list_lookup_imap, list_lookup_fmap.
      destruct (l !! j) as [x|] eqn:Hj; [|done]. simpl. f_equal.
      apply getRowKey_index_free; [done|].
      apply Hl. by eapply list_elem_of_lookup_2. }
    unfold rowKeys. rewrite !Hmap; [by rewrite Hperm|done|].
    intros x Hx. by rewrite <- Hperm.
  - intros Hi Hcb. unfold handleRowSelect. rewrite Hcb. simpl.
    eexists. split; [done|].
    assert (Hr : r ∈ data p).
    { rewrite <- Hperm. by eapply list_elem_of_lookup_2. }
    apply list_elem_of_lookup in Hr as [j Hj].
    apply array_filter_elem. exists j. split; [done|].
    unfold set_has. apply bool_decide_eq_true_2.
    rewrite (getRowKey_index_free p r j i) by
      (try done; by eapply list_elem_of_lookup_2).
    set_solver.
Qed.

(** ** The controls of the rendered table *)

Lemma actions_elem tag attrs on children :
  actions (VElem tag attrs on children)
  = option_list on ++ concat (actions <$> children).
Proof.
  simpl. f_equal. induction children as [|n l IH]; [done|].
  simpl. by rewrite IH.
Qed.

Local Arguments actions : simpl never.

Lemma actions_text t : actions (VText t) = [].
Proof. done. Qed.

Lemma actions_value v : actions (VValue v) = [].
Proof. done. Qed.

Lemma actions_icon tag : actions (icon tag) = [].
Proof. done. Qed.

Ltac actions_simpl :=
  repeat first
    [ rewrite actions_elem | rewrite actions_icon | rewrite actions_text
    | rewrite actions_value | progress simpl ].

Lemma actions_imap {A} (f : nat → A → vnode) (h : nat → A → action) l :
  (∀ i x, l !! i = Some x → actions (f i x) = [h i x]) →
  concat (actions <$> imap f l) = imap h l.
Proof.
  revert f h. induction l as [|x l IH]; intros f h Hf; [done|].
  rewrite !imap_cons. simpl. rewrite (Hf 0%nat x) by done. simpl. f_equal.
  apply IH. intros i y Hi. by apply (Hf (S i)).
Qed.

Lemma actions_imap_none {A} (f : nat → A → vnode) l :
  (∀ i x, actions (f i x) = []) → concat (actions <$> imap f l) = [].
Proof.
  revert f. induction l as [|x l IH]; intros f Hf; [done|].
  rewrite imap_cons. simpl. rewrite Hf. simpl. apply IH.
  intros i y. apply Hf.
Qed.

Lemma actions_none {A} (f : A → vnode) l :
  (∀ x, x ∈ l → actions (f x) = []) → concat (actions <$> (f <$> l)) = [].
Proof.
  induction l as [|x l IH]; intros Hf; [done|].
  simpl. rewrite Hf by left. simpl. apply IH. intros y Hy. apply Hf. by right.
Qed.

Lemma renderSortIcon_actions s col :
  concat (actions <$> renderSortIcon s col) = [].
Proof.
  unfold renderSortIcon. destruct (negb _); [done|].
  destruct (negb _); [by actions_simpl|].
  destruct (bool_decide _); by actions_simpl.
Qed.

Lemma headerRow_actions p s : actions (headerRow p s) = header_controls p.
Proof.
  unfold headerRow, header_controls. rewrite actions_elem. simpl.
  rewrite fmap_app, concat_app. f_equal.
  - destruct (selectable_or_default p); by actions_simpl.
  - apply actions_imap. intros i col _. actions_simpl.
    by rewrite renderSortIcon_actions.
Qed.

Lemma bodyRow_actions p s i r :
  renderers_inert (columns p) →
  actions (bodyRow p s i r)
  = if selectable_or_default p then [CheckRow (getRowKey p r i)] else [].
Proof.
  intros Hinert. unfold bodyRow. rewrite actions_elem. simpl.
  rewrite fmap_app, concat_app.
  rewrite (actions_none _ (columns p)).
  - destruct (selectable_or_default p); by actions_simpl.
  - intros col Hcol. actions_simpl.
    destruct (render col) as [f|] eqn:Hr; [|by rewrite actions_value].
    by rewrite (Hinert col f _ _ _ Hcol Hr).
Qed.

Lemma loadingRow_actions p : actions (loadingRow p) = [].
Proof. unfold loadingRow. by actions_simpl. Qed.

Lemma emptyPanel_actions p : actions (emptyPanel p) = [].
Proof. unfold emptyPanel. by actions_simpl. Qed.

Lemma tableView_actions p s body :
  actions (tableView p s body) = header_controls p ++ concat (actions <$> body).
Proof.
  unfold tableView. actions_simpl. rewrite headerRow_actions.
  by rewrite !app_nil_r.
Qed.

Lemma DataTable_actions p s :
  renderers_inert (columns p) →
  actions (DataTable p s)
  = match renderState p with
    | Empty => []
    | Loading => header_controls p
    | Populated =>
        header_controls p
        ++ (if selectable_or_default p
            then imap (λ index record, CheckRow (getRowKey p record index))
                   (sortedData (data p) (columns p) (sortState s))
            else [])
    end.
Proof.
  intros Hinert. unfold renderState, DataTable, bodyRows.
  destruct (negb (loading_or_default p) && _) eqn:Hempty;
    [apply emptyPanel_actions|].
  rewrite tableView_actions.
  destruct (loading_or_default p) eqn:Hl.
  - replace (concat (actions <$> [loadingRow p])) with ([] : list action);
      [by rewrite app_nil_r|].
    unfold loadingRow. by actions_simpl.
  - f_equal. destruct (selectable_or_default p) eqn:Hsel.
    + apply actions_imap. intros i r _. by rewrite bodyRow_actions, Hsel.
    + apply actions_imap_none. intros i r. by rewrite bodyRow_actions, Hsel.
Qed.

(** The controls a user can reach, when no custom cell renderer adds one:
    none in the empty state; in the loading state the header controls only,
    so sorting and select-all stay active while no row can be ticked; in the
    populated state the header controls followed, when the table is
    selectable, by one checkbox per displayed row that carries the key
    computed with the row's display index. *)
Theorem rendered_controls p s :
  renderers_inert (columns p) →
  actions (DataTable p s)
  = match renderState p with
    | Empty => []
    | Loading => header_controls p
    | Populated =>
        header_controls p
        ++ (if selectable_or_default p
            then imap (λ index record, CheckRow (getRowKey p record index))
                   (sortedData (data p) (columns p) (sortState s))
            else [])
    end.
Proof. apply DataTable_actions. Qed.

(** ** Arrays handed out and handed over *)

Lemma alloc_fresh (v : cell) (h : heap) : h !! (alloc v h).1 = None.
Proof. unfold alloc. simpl. apply not_elem_of_dom, is_fresh. Qed.

(** The array [sortedData] returns holds the sorted view. It is either the
    caller's own array, with nothing written, or an array that did not
    exist before and is the only cell written. *)
Theorem sortedData_mem_result dataRef columnsRef st (h : heap) :
  let view := sortedData (read_rows h dataRef) (read_columns h columnsRef) st in
  let r := (sortedData_mem dataRef columnsRef st h).1 in
  let h' := (sortedData_mem dataRef columnsRef st h).2 in
  read_rows h' r = view
  ∧ ((r = dataRef ∧ h' = h)
     ∨ (h !! r = None ∧ h' = <[r := RowArray view]> h)).
Proof.
  intros view r h'.
  pose proof (sortedData_mem_refines dataRef columnsRef st h) as Href.
  unfold view, r, h' in *. clear view r h'.
  split; [by destruct (sortedData_mem dataRef columnsRef st h)|]. clear Href.
  unfold sortedData_mem, sortedData.
  destruct (negb _ || negb _); [by left|].
  destruct (column st) as [id|]; [|by left].
  destruct (order st) as [ord|]; [|by left].
  destruct (find_column _ id) as [col|]; [|by left].
  right. unfold array_spread, array_sort_in_place.
  pose proof (alloc_fresh (RowArray (read_rows h dataRef)) h) as Hfresh.
  unfold alloc in *. simpl in *. split; [done|].
  rewrite insert_insert_eq. f_equal. f_equal. f_equal.
  unfold read_rows at 1. by rewrite lookup_insert_eq.
Qed.

(** The handlers on references compute the same next state as the
    handlers on values and hand the callback an array with the same rows.
    A change of one row's selection hands over an array that did not exist
    before; select-all hands over the caller's own [data] array, and
    deselect-all a new empty one. *)
Theorem selection_handlers_mem_refine p dataRef s k b (h : heap) callback :
  data p = read_rows h dataRef → onRowSelect p = Some callback →
  (let '(s', locs, h') := handleRowSelect_mem p dataRef s k b h in
   s' = (handleRowSelect p s k b).1
   ∧ ∃ l, locs = [l] ∧ h !! l = None
          ∧ (handleRowSelect p s k b).2 = [callback (read_rows h' l)])
  ∧ (let '(s', locs, h') := handleSelectAll_mem p dataRef s b h in
     s' = (handleSelectAll p s b).1
     ∧ ∃ l, locs = [l]
            ∧ (handleSelectAll p s b).2 = [callback (read_rows h' l)]
            ∧ if b then l = dataRef ∧ h' = h
              else h !! l = None ∧ read_rows h' l = []).
Proof.
  intros Hdata Hcb. split.
  - unfold handleRowSelect_mem, handleRowSelect. rewrite Hcb, <- Hdata.
    unfold alloc. simpl. split; [done|]. eexists. split; [done|].
    split; [apply not_elem_of_dom, is_fresh|].
    unfold read_rows. by rewrite lookup_insert_eq.
  - unfold handleSelectAll_mem, handleSelectAll, rowKeys.
    rewrite Hcb, <- Hdata. destruct b.
    + split; [done|]. exists dataRef. by rewrite Hdata.
    + unfold alloc. simpl. split; [done|]. eexists. split; [done|].
      unfold read_rows. rewrite lookup_insert_eq.
      split; [done|]. split; [apply not_elem_of_dom, is_fresh|done].
Qed.

End TableProperties.

(** * Properties of the input field *)

Section InputFieldProperties.

Import InputField.

Context {E : Type}.

Implicit Types (p : InputFieldProps E) (st : InputField.State).

(** The effect of the first render changes nothing. Once the effect has
    run, two clicks on the visibility button restore the state. For a
    password field one click shows the text if it was hidden and hides it
    if it was shown; for any other type the input keeps the type of the
    props whatever the visibility flag. *)
Theorem password_visibility_toggle p st :
  effect p (InputField.initialState p) = InputField.initialState p
  ∧ (effect p st = st → click_toggle p (click_toggle p st) = st)
  ∧ (type_or_default p = password →
     internalType (click_toggle p st) = if showPassword st then password else text)
  ∧ (type_or_default p ≠ password →
     internalType (click_toggle p st) = type_or_default p).
Proof.
  unfold click_toggle, effect, togglePasswordVisibility, InputField.initialState.
  simpl. repeat split.
  - case_bool_decide as Hty; [by rewrite Hty|done].
  - intros Hst. by rewrite negb_involutive.
  - intros Hty. rewrite bool_decide_eq_true_2 by done.
    by destruct (showPassword st).
  - intros Hne. by rewrite bool_decide_eq_false_2.
Qed.

(** The icons container is rendered exactly when it has an icon to show,
    and the input is padded on the right exactly then. While loading it
    holds the spinner alone and the input is disabled; otherwise it never
    holds the spinner. *)
Theorem icons_container_never_empty p st :
  paddedRight (InputField p st) = bool_decide (icons p st ≠ [])
  ∧ iconsContainer (InputField p st)
    = (if bool_decide (icons p st ≠ []) then Some (icons p st) else None)
  ∧ (InputField.loading_or_default p = true →
     icons p st = [Spinner] ∧ inputDisabled (InputField p st) = true)
  ∧ (InputField.loading_or_default p = false → Spinner ∉ icons p st).
Proof.
  unfold InputField, icons, showsIcons. simpl.
  destruct (InputField.loading_or_default p) eqn:Hl; simpl.
  - rewrite !orb_true_r. repeat split; done.
  - rewrite !orb_false_r.
    destruct (showClearButton_or_default p && hasContent p);
      destruct (showPasswordToggle_or_default p && bool_decide _); simpl;
      repeat split; try done; set_solver.
Qed.

Lemma truthy_string_Some (o : option string) :
  truthy_string o = true → ∃ t, o = Some t ∧ t ≠ EmptyString.
Proof.
  destruct o as [t|]; simpl; [|done]. intros Ht. exists t. split; [done|].
  apply negb_true_iff, bool_decide_eq_false in Ht. done.
Qed.

(** The two [aria-] attributes of the input are written before the
    rest props are spread, so a caller that passes one of them among the
    rest props gets its own value. Otherwise the input names a describing
    element exactly when one is rendered, and then by that element's id,
    and it is marked invalid exactly when that element is styled as an
    error. The rendered text is never empty, and an error message takes
    precedence over the helper text. *)
Theorem description_matches_input p st :
  (∀ v, rest p !! "aria-describedby"%string = Some v →
     ariaDescribedby (InputField p st) = v)
  ∧ (∀ v, rest p !! "aria-invalid"%string = Some v →
       ariaInvalid (InputField p st) = v)
  ∧ (rest p !! "aria-describedby"%string = None →
       ariaDescribedby (InputField p st)
       = from_option (λ d, VStr d.1.1) VUndefined (description (InputField p st)))
  ∧ (rest p !! "aria-invalid"%string = None →
       ariaInvalid (InputField p st) = VBool (hasError p))
  ∧ (∀ i t e, description (InputField p st) = Some (i, t, e) →
       (∃ txt, t = Some txt ∧ txt ≠ EmptyString)
       ∧ (truthy_string (errorMessage p) = true → t = errorMessage p ∧ e = true)
       ∧ e = hasError p).
Proof.
  unfold InputField, spread_over. simpl. split_and!.
  - by intros v ->.
  - by intros v ->.
  - intros ->. by destruct (hasDescription p).
  - by intros ->.
  - intros i t e. unfold hasDescription, descriptionText, hasError.
    destruct (truthy_string (errorMessage p)) eqn:He.
    + rewrite orb_true_r. intros [= <- <- <-].
      split; [by apply truthy_string_Some|]. split; [|done].
      split; [done|]. by rewrite orb_true_r.
    + rewrite orb_false_r.
      destruct (truthy_string (helperText p)) eqn:Hh; [|done].
      intros [= <- <- <-].
      split; [by apply truthy_string_Some|]. split; done.
Qed.

End InputFieldProperties.

(** * Properties of the demo page *)

Section DemoProperties.

Import Demo.

Context `{host : Host}.

Lemma handleSort_keys (c : Column) (s : State) :
  selectedRowKeys (handleSort c s) = selectedRowKeys s.
Proof. unfold handleSort. by destruct (negb _). Qed.

Lemma filter_from_index_free {A} (f : A → nat → bool) (P : A → Prop)
    `{!∀ x, Decision (P x)} off (l : list A) :
  (∀ i x, x ∈ l → f x i = bool_decide (P x)) →
  filter_from f off l = filter P l.
Proof.
  revert off. induction l as [|x l IH]; intros off Hf; [done|].
  simpl. rewrite filter_cons, (Hf off x) by left.
  rewrite IH by (intros i y Hy; apply Hf; by right).
  case_bool_decide; [by rewrite decide_True|by rewrite decide_False].
Qed.

Lemma sampleUsers_keys d r i :
  r ∈ sampleUsers → getRowKey (tableProps d) r i = get_field r "id".
Proof.
  intros Hr. unfold sampleUsers in Hr.
  repeat (apply elem_of_cons in Hr as [->|Hr]); [done..|].
  by apply elem_of_nil in Hr.
Qed.

Lemma tableColumns_inert : renderers_inert tableColumns.
Proof.
  intros col f v r i Hcol Hr. unfold tableColumns in Hcol.
  repeat (apply elem_of_cons in Hcol as [->|Hcol]);
    [try discriminate Hr..|by apply elem_of_nil in Hcol].
  injection Hr as <-. by destruct v.
Qed.

Lemma row_checkbox_needs_rows d k :
  CheckRow k ∈ actions (DataTable (tableProps d) (table d)) →
  tableData d ≠ [].
Proof.
  rewrite DataTable_actions by apply tableColumns_inert.
  unfold renderState, header_controls, loading_or_default. simpl.
  destruct (isTableLoading d); simpl.
  - intros Hin _.
    repeat (apply elem_of_cons in Hin as [Hin|Hin]; [discriminate Hin|]).
    by apply elem_of_nil in Hin.
  - destruct (tableData d); simpl; [|done]. intros Hin _.
    by apply elem_of_nil in Hin.
Qed.

Lemma step_table_control d a checked :
  selectedRows (step d (TableControl a checked))
  = last_set (selectedRows d) (dispatch (tableProps d) (table d) a checked).2
  ∧ table (step d (TableControl a checked))
    = (dispatch (tableProps d) (table d) a checked).1
  ∧ tableData (step d (TableControl a checked)) = tableData d.
Proof.
  simpl. by destruct (dispatch (tableProps d) (table d) a checked).
Qed.

(** On every state the page can reach, the rows the page believes to be
    selected (the source of its "n row(s) selected" banner) are the sample
    users whose [id] is in the table's selection set, in the order of the
    sample; the table data is the sample or empty. Clearing the data thus
    keeps the banner, and restoring it shows the same rows ticked. *)
Theorem demo_selectedRows_follow_selection d :
  reachable d →
  selectedRows d
  = filter (λ r, get_field r "id" ∈ selectedRowKeys (table d)) sampleUsers
  ∧ (tableData d = sampleUsers ∨ tableData d = []).
Proof.
  induction 1 as [|d e _ [IHsel IHdata] Hen].
  { split; [|by left]. vm_compute. reflexivity. }
  destruct e as [| | | |a checked|v|];
    [by split; [|right] | by split; [|left] | done | done | | done | done].
  destruct (step_table_control d a checked) as (-> & -> & ->).
  split; [|done]. destruct a as [i| |k]; simpl.
  - destruct (tableColumns !! i) as [col|]; simpl; [|done].
    by rewrite handleSort_keys.
  - unfold handleSelectAll. simpl. destruct checked; simpl.
    + unfold rowKeys. simpl.
      destruct IHdata as [->| ->]; vm_compute; reflexivity.
    + vm_compute. reflexivity.
  - simpl in Hen. apply row_checkbox_needs_rows in Hen.
    destruct IHdata as [Hd|Hd]; [|done].
    unfold handleRowSelect. simpl.
    rewrite Hd. unfold array_filter.
    apply (filter_from_index_free _
             (λ r, get_field r "id"
                   ∈ (if checked then selectedRowKeys (table d) ∪ {[k]}
                      else selectedRowKeys (table d) ∖ {[k]}))).
    intros i r Hr. unfold set_has. by rewrite sampleUsers_keys.
Qed.

(** The clear button of the first input is offered exactly when the field
    holds text; clicking it empties the field, after which it is no longer
    offered; typing stores what was typed. *)
Theorem demo_clear_full_name d v :
  (enabled d ClearFullName ↔ basicInput d ≠ EmptyString)
  ∧ basicInput (step d ClearFullName) = EmptyString
  ∧ ¬ enabled (step d ClearFullName) ClearFullName
  ∧ basicInput (step d (TypeFullName v)) = v.
Proof.
  assert (Hen : ∀ d', enabled d' ClearFullName ↔ basicInput d' ≠ EmptyString).
  { intros d'. unfold enabled, InputField.icons, InputField.hasContent,
      InputField.value_or_default, InputField.disabled_or_default,
      InputField.loading_or_default, InputField.showClearButton_or_default,
      InputField.showPasswordToggle_or_default. simpl.
    destruct (basicInput d') as [|c rest]; simpl.
    - split; [|done]. intros Hin. by apply elem_of_nil in Hin.
    - split; [done|]. intros _. by left. }
  split; [apply Hen|]. split; [done|]. split; [|done].
  rewrite Hen. simpl. tauto.
Qed.

End DemoProperties.

(** * The further properties on the sample inputs *)

(** The insertion sort of the sample host is a stable engine. *)
Lemma sample_host_stable : engine_stable (host:=sample_host).
Proof. intros cmp l Hc a Ha. by apply array_sort_stable. Qed.

Lemma sample_ages_numeric (l : list (Z * Z)) :
  Forall (numeric_on "age") ((λ u, user u.1 u.2) <$> l).
Proof.
  apply Forall_fmap, Forall_forall. intros [i n] _. by exists n.
Qed.

Lemma sortedData_stable_witness :
  filter (λ r, get_field r "age" = VNum 30)
    (sortedData (host:=sample_host) [user 1 30; user 2 20; user 3 30]
       [age_column; name_column] (sortState (sorted_by_age asc ∅)))
  = filter (λ r, get_field r "age" = VNum 30) [user 1 30; user 2 20; user 3 30].
Proof.
  apply (sortedData_stable (host:=sample_host) [user 1 30; user 2 20; user 3 30]
           [age_column; name_column] (sortState (sorted_by_age asc ∅))
           "age" age_column (VNum 30)).
  - reflexivity.
  - reflexivity.
  - apply sample_host_stable.
  - intros ord _. apply compareRows_consistent_numeric.
    apply (sample_ages_numeric [(1, 30); (2, 20); (3, 30)]).
Defined.

Lemma sortedData_numeric_sorted_witness :
  StronglySorted Z.ge
    (field_num "age"
       <$> sortedData (host:=sample_host) [user 1 30; user 2 20; user 3 30]
             [age_column; name_column] (sortState (sorted_by_age desc ∅))).
Proof.
  apply (sortedData_numeric_sorted (host:=sample_host)
           [user 1 30; user 2 20; user 3 30] [age_column; name_column]
           (sortState (sorted_by_age desc ∅)) "age" desc age_column).
  - reflexivity.
  - discriminate.
  - reflexivity.
  - reflexivity.
  - repeat (constructor; [eexists; reflexivity|]). constructor.
Defined.

Lemma sortedData_idempotent_witness :
  sortedData (host:=sample_host)
    (sortedData (host:=sample_host) [user 1 30; user 2 20]
       [age_column; name_column] (sortState (sorted_by_age asc ∅)))
    [age_column; name_column] (sortState (sorted_by_age asc ∅))
  = sortedData (host:=sample_host) [user 1 30; user 2 20]
      [age_column; name_column] (sortState (sorted_by_age asc ∅)).
Proof.
  apply (proj2 (sortedData_idempotent (host:=sample_host) [user 1 30; user 2 20]
                  [age_column; name_column] (sortState (sorted_by_age asc ∅))
                  "age" asc age_column eq_refl ltac:(discriminate) eq_refl eq_refl
                  sample_host_stable)).
  apply (sample_ages_numeric [(1, 30); (2, 20)]).
Defined.

Lemma interact_sortState_wf_witness :
  sortState_wf [age_column; name_column]
    (sortState
       (interact (mk_props [user 1 30] false) initialState
          [(ClickHeader 0, false); (ClickHeader 1, false); (ClickHeader 0, false)]).1).
Proof.
  apply (interact_sortState_wf (mk_props [user 1 30] false) initialState
           [(ClickHeader 0, false); (ClickHeader 1, false); (ClickHeader 0, false)]).
  left. reflexivity.
Defined.

Lemma handleRowSelect_idempotent_commute_witness :
  (handleRowSelect (mk_props [user 1 30; user 2 20] false)
     (handleRowSelect (mk_props [user 1 30; user 2 20] false)
        initialState (VNum 1) true).1 (VNum 2) false).1
  = (handleRowSelect (mk_props [user 1 30; user 2 20] false)
       (handleRowSelect (mk_props [user 1 30; user 2 20] false)
          initialState (VNum 2) false).1 (VNum 1) true).1.
Proof.
  apply (proj2 (handleRowSelect_idempotent_commute
                  (mk_props [user 1 30; user 2 20] false) initialState
                  (VNum 1) (VNum 2) true false)).
  discriminate.
Defined.

Lemma isAllSelected_iff_every_row_witness :
  isAllSelected (mk_props [user 1 30; user 2 20] false) initialState = true
  ↔ data (mk_props [user 1 30; user 2 20] false) ≠ []
    ∧ ∀ k, k ∈ rowKeys (mk_props [user 1 30; user 2 20] false) →
           k ∈ selectedRowKeys initialState.
Proof.
  apply (isAllSelected_iff_every_row (mk_props [user 1 30; user 2 20] false)
           initialState).
  - vm_compute. repeat constructor; set_solver.
  - simpl. apply empty_subseteq.
Defined.

Lemma deselect_one_after_select_all_witness :
  isIndeterminate (mk_props [user 1 30; user 2 20] false)
    (handleRowSelect (mk_props [user 1 30; user 2 20] false)
       (handleSelectAll (mk_props [user 1 30; user 2 20] false) initialState true).1
       (VNum 2) false).1
  = true.
Proof.
  apply (deselect_one_after_select_all (mk_props [user 1 30; user 2 20] false)
           initialState (VNum 2)).
  - vm_compute. repeat constructor; set_solver.
  - vm_compute. apply list_elem_of_further, list_elem_of_here.
  - simpl. lia.
Defined.

Lemma keys_survive_sorting_witness :
  imap (λ index record, getRowKey (mk_props [user 1 30; user 2 20] true) record index)
    (sortedData (host:=sample_host) [user 1 30; user 2 20]
       [age_column; name_column] (sortState (sorted_by_age asc ∅)))
  ≡ₚ rowKeys (mk_props [user 1 30; user 2 20] true).
Proof.
  apply (keys_survive_sorting (host:=sample_host)
           (mk_props [user 1 30; user 2 20] true) (sorted_by_age asc ∅)
           0%nat (user 2 20) (λ rows, rows)).
  unfold keys_index_free. simpl.
  repeat (constructor; [unfold nullish_on; vm_compute; discriminate|]).
  constructor.
Defined.

Lemma rendered_controls_witness :
  actions (DataTable (host:=sample_host) (mk_props [user 1 30; user 2 20] true)
             (sorted_by_age asc ∅))
  = [CheckAll; ClickHeader 0; ClickHeader 1; CheckRow (VNum 2); CheckRow (VNum 1)].
Proof.
  rewrite (rendered_controls (host:=sample_host)
             (mk_props [user 1 30; user 2 20] true) (sorted_by_age asc ∅)).
  - vm_compute. reflexivity.
  - intros col f v r i Hcol Hr. simpl in Hcol.
    apply elem_of_cons in Hcol as [->|Hcol]; [discriminate Hr|].
    apply elem_of_cons in Hcol as [->|Hcol]; [discriminate Hr|].
    by apply elem_of_nil in Hcol.
Defined.

Lemma selection_handlers_mem_refine_witness :
  (handleRowSelect_mem (mk_props [user 1 30; user 2 20] true) 1%positive
     initialState (VNum 2) true sample_heap).1.1
  = (handleRowSelect (mk_props [user 1 30; user 2 20] true)
       initialState (VNum 2) true).1.
Proof.
  pose proof (selection_handlers_mem_refine
                (mk_props [user 1 30; user 2 20] true) 1%positive
                initialState (VNum 2) true sample_heap (λ rows, rows)
                eq_refl eq_refl) as [H _].
  destruct (handleRowSelect_mem (mk_props [user 1 30; user 2 20] true) 1%positive
              initialState (VNum 2) true sample_heap) as [[s' locs] h'].
  exact (proj1 H).
Defined.

Lemma password_visibility_toggle_witness :
  InputField.internalType
    (InputField.click_toggle sample_password_field
       (InputField.initialState sample_password_field))
  = InputField.text.
Proof.
  apply (proj1 (proj2 (proj2 (password_visibility_toggle sample_password_field
                                (InputField.initialState sample_password_field))))).
  reflexivity.
Defined.

Lemma icons_container_never_empty_witness :
  InputField.Spinner
  ∉ InputField.icons sample_password_field
      (InputField.initialState sample_password_field).
Proof.
  apply (proj2 (proj2 (proj2 (icons_container_never_empty sample_password_field
                                (InputField.initialState sample_password_field))))).
  reflexivity.
Defined.

Lemma description_matches_input_witness :
  (∃ txt, Some "Too short"%string = Some txt ∧ txt ≠ EmptyString)
  ∧ InputField.ariaInvalid
      (InputField.InputField sample_overriding_field
         (InputField.initialState sample_overriding_field))
    = VBool false
  ∧ InputField.hasError sample_overriding_field = true.
Proof.
  split; [|split].
  - apply (proj2 (proj2 (proj2 (proj2
             (description_matches_input sample_password_field
                (InputField.initialState sample_password_field)))))
             "pw-description"%string (Some "Too short"%string) true).
    reflexivity.
  - apply (proj1 (proj2
             (description_matches_input sample_overriding_field
                (InputField.initialState sample_overriding_field)))).
    reflexivity.
  - reflexivity.
Defined.

Lemma demo_selectedRows_follow_selection_witness :
  let d := Demo.step (Demo.step Demo.initialDemo (Demo.TableControl (CheckRow (VNum 2)) true))
             Demo.ClearData in
  Demo.selectedRows d
  = filter (λ r, get_field r "id" ∈ selectedRowKeys (Demo.table d)) Demo.sampleUsers
  ∧ (Demo.tableData d = Demo.sampleUsers ∨ Demo.tableData d = []).
Proof.
  apply (demo_selectedRows_follow_selection (host:=sample_host)).
  apply Demo.reachable_step; [|exact I].
  apply Demo.reachable_step; [apply Demo.reachable_initial|].
  unfold Demo.enabled. vm_compute.
  repeat first [apply list_elem_of_here | apply list_elem_of_further].
Defined.

Lemma demo_clear_full_name_witness :
  Demo.enabled (host:=sample_host)
    (Demo.step Demo.initialDemo (Demo.TypeFullName "Ada")) Demo.ClearFullName.
Proof.
  apply (proj1 (demo_clear_full_name (host:=sample_host)
                  (Demo.step Demo.initialDemo (Demo.TypeFullName "Ada"))
                  EmptyString)).
  discriminate.
Defined.
